(** * The damped-Newton superquadric fitter of [tools/src/minimizer.cpp]

    A shallow embedding of the class [minimizer]: its constructor,
    [loadPoints], the residual evaluators [df] and [ddf], and the solver
    loop [minimize], followed by the properties of the specification.

    The program computes on C++ [double]s.  The embedding is generic in the
    scalar type (class [Scalar]): every structural theorem therefore holds
    for IEEE binary64 arithmetic (instance [float_scalar], on Rocq's
    primitive floats) and for exact arithmetic (instance [Qc_scalar]). *)

From Stdlib Require Import List ZArith Bool Lia Arith.
From Stdlib Require Import Floats Ring_theory Ring QArith Qcanon Permutation.
Import ListNotations.

Set Implicit Arguments.
Local Open Scope nat_scope.

(** ** Scalars: what the code does with a [double] *)

Class Scalar (R : Type) : Type := {
  rzero : R;                 (* 0 *)
  rone : R;                  (* 1, the diagonal of Identity *)
  radd : R -> R -> R;        (* operator+ *)
  rsub : R -> R -> R;        (* operator- *)
  rmul : R -> R -> R;        (* operator* *)
  rneq : R -> R -> bool;     (* operator!= ; [x != x] is the NaN test *)
  rgt : R -> R -> bool;      (* operator>  *)
  rle : R -> R -> bool;      (* operator<= , used by the specification only *)
  lit_0_1 : R;               (* the literal 0.1 *)
  lit_0_005 : R              (* the literal 0.005 *)
}.

(** ** Data *)

(** pcl::PointXYZ, read through [it->x], [it->y], [it->z]. *)
Record PointXYZ (R : Type) : Type := mkPoint { pt_x : R; pt_y : R; pt_z : R }.

(** Eigen::VectorXd and Eigen::MatrixXd (a list of rows). *)
Definition VectorXd (R : Type) : Type := list R.
Definition MatrixXd (R : Type) : Type := list (list R).

(** What is written to std::cout. *)
Inductive event (R : Type) : Type :=
| Loaded (npoints : nat)
| InitialGuess (coeffs : VectorXd R)
| IterError (iter : Z) (error : R)
| JacobianNaN (n : nat)
| HessianNaN (m n : nat)
| Bad (iter : Z) (coeffs : VectorXd R)
| Good (iter : Z) (coeffs : VectorXd R) (J : VectorXd R) (H : MatrixXd R).

Arguments Loaded {R}.
Arguments JacobianNaN {R}.
Arguments HessianNaN {R}.

(** The members of class [minimizer] that the fit reads or writes. *)
Record minimizer (R : Type) : Type := mkMinimizer {
  mSamples : list (PointXYZ R);
  mParams : VectorXd R;
  mLambda : R;
  mMaxIter : Z;
  mMinThresh : R;
  mNumParams : nat
}.

(** Code used by [minimizer.cpp] and declared elsewhere: the parameter
    struct with its two conversions (minimizer.h / SQ_sampler.h), the
    generated derivative routines [jac_] and [hessian_] (called with the
    eleven scalars a1 ... ya, the point coordinates and an output buffer,
    here the buffer's contents after the call, by index), and Eigen's
    [inverse()] and [norm()]. *)
Record Extern (R : Type) : Type := mkExtern {
  SQ_params : Type;
  params2Vec : SQ_params -> VectorXd R;
  vec2Param : VectorXd R -> SQ_params -> SQ_params;
  jac_ : list R -> R -> R -> R -> nat -> R;
  hessian_ : list R -> R -> R -> R -> nat -> R;
  inverse : MatrixXd R -> MatrixXd R;
  norm : VectorXd R -> R
}.

(** ** Lists as arrays *)

Fixpoint set_nth {A : Type} (l : list A) (i : nat) (x : A) : list A :=
  match l, i with
  | [], _ => []
  | _ :: t, O => x :: t
  | h :: t, S i' => h :: set_nth t i' x
  end.

Fixpoint map2 {A B C : Type} (f : A -> B -> C) (l1 : list A) (l2 : list B) : list C :=
  match l1, l2 with
  | a :: t1, b :: t2 => f a b :: map2 f t1 t2
  | _, _ => []
  end.

Section Model.

Context {R : Type} {SR : Scalar R}.

(** ** The Eigen operations the code uses

    Coefficient access outside the dimensions is an assertion failure in
    Eigen; the object keeps every vector at [mNumParams] coefficients, and
    the embedding reads [rzero] and writes nothing there. *)

Definition vget (v : VectorXd R) (i : nat) : R := nth i v rzero.
Definition vset (v : VectorXd R) (i : nat) (x : R) : VectorXd R := set_nth v i x.
Definition mget (M : MatrixXd R) (i j : nat) : R := nth j (nth i M []) rzero.
Definition mset (M : MatrixXd R) (i j : nat) (x : R) : MatrixXd R :=
  set_nth M i (set_nth (nth i M []) j x).

Definition VZero (n : nat) : VectorXd R := repeat rzero n.
Definition MZero (r c : nat) : MatrixXd R := repeat (repeat rzero c) r.
Definition Identity (r c : nat) : MatrixXd R :=
  map (fun i => map (fun j => if Nat.eqb i j then rone else rzero) (seq 0 c)) (seq 0 r).

Definition vadd (u v : VectorXd R) : VectorXd R := map2 radd u v.
Definition vsub (u v : VectorXd R) : VectorXd R := map2 rsub u v.
Definition vscale (c : R) (v : VectorXd R) : VectorXd R := map (rmul c) v.
Definition madd (A B : MatrixXd R) : MatrixXd R := map2 vadd A B.
Definition mscale (c : R) (A : MatrixXd R) : MatrixXd R := map (vscale c) A.
Definition dot (u v : VectorXd R) : R := fold_right radd rzero (map2 rmul u v).
Definition mvmul (A : MatrixXd R) (v : VectorXd R) : VectorXd R :=
  map (fun row => dot row v) A.
(** Row [a] times matrix [B] (with [c] columns), and the matrix product. *)
Definition vmmul (c : nat) (a : VectorXd R) (B : MatrixXd R) : VectorXd R :=
  fold_right (fun xb acc => vadd (vscale (fst xb) (snd xb)) acc) (VZero c) (combine a B).
Definition mmul (c : nat) (A B : MatrixXd R) : MatrixXd R :=
  map (fun a => vmmul c a B) A.

Definition is_matrix (r c : nat) (M : MatrixXd R) : Prop :=
  length M = r /\ Forall (fun row => length row = c) M.

(** ** The object *)

Definition set_mParams (m : minimizer R) (p : VectorXd R) : minimizer R :=
  {| mSamples := mSamples m; mParams := p; mLambda := mLambda m;
     mMaxIter := mMaxIter m; mMinThresh := mMinThresh m;
     mNumParams := mNumParams m |}.

Definition set_mSamples (m : minimizer R) (cloud : list (PointXYZ R)) : minimizer R :=
  {| mSamples := cloud; mParams := mParams m; mLambda := mLambda m;
     mMaxIter := mMaxIter m; mMinThresh := mMinThresh m;
     mNumParams := mNumParams m |}.

(** minimizer::minimizer().  [srand] seeds the generator of [getRand],
    which the fit never calls; [resize] leaves the coefficients of
    [mParams] unspecified, and [minimize] assigns them before any read. *)
Definition minimizer_ctor : minimizer R :=
  {| mSamples := [];
     mParams := VZero 11;
     mLambda := lit_0_1;
     mMaxIter := 1000;
     mMinThresh := lit_0_005;
     mNumParams := 11 |}.

(** minimizer::loadPoints( const PointCloud::Ptr & ). *)
Definition loadPoints (m : minimizer R) (_cloud : list (PointXYZ R))
  : bool * minimizer R * list (event R) :=
  (true, set_mSamples m _cloud, [Loaded (length _cloud)]).

Variable X : Extern R.

(** ** The residual evaluator *)

(** The eleven scalars a1, a2, a3, e1, e2, px, py, pz, ra, pa, ya. *)
Definition sq_args (_params : VectorXd R) : list R :=
  let a1 := vget _params 0 in
  let a2 := vget _params 1 in
  let a3 := vget _params 2 in
  let e1 := vget _params 3 in
  let e2 := vget _params 4 in
  let px := vget _params 5 in
  let py := vget _params 6 in
  let pz := vget _params 7 in
  let ra := vget _params 8 in
  let pa := vget _params 9 in
  let ya := vget _params 10 in
  [a1; a2; a3; e1; e2; px; py; pz; ra; pa; ya].

(** One pass of the inner loop of [df]: [jac[n]] is skipped and reported
    when it differs from itself, added to [df(n)] otherwise. *)
Definition df_elem (jac : nat -> R) (acc : VectorXd R * list (event R)) (n : nat)
  : VectorXd R * list (event R) :=
  if rneq (jac n) (jac n)
  then (fst acc, snd acc ++ [JacobianNaN n])
  else (vset (fst acc) n (radd (vget (fst acc) n) (jac n)), snd acc).

Definition df_point (N : nat) (_params : VectorXd R)
  (acc : VectorXd R * list (event R)) (it : PointXYZ R)
  : VectorXd R * list (event R) :=
  let x := pt_x it in
  let y := pt_y it in
  let z := pt_z it in
  let jac := jac_ X (sq_args _params) x y z in
  fold_left (df_elem jac) (seq 0 N) acc.

(** minimizer::df: the gradient and the diagnostics it prints. *)
Definition df (m : minimizer R) (_params : VectorXd R)
  : VectorXd R * list (event R) :=
  let N := mNumParams m in
  let df0 := fold_left (fun d n => vset d n rzero) (seq 0 N) (VZero N) in
  fold_left (df_point N _params) (mSamples m) (df0, []).

(** The accumulator of the two inner loops of [ddf]: the matrix, the
    running index [ind] into [hes], and the output. *)
Definition ddf_elem (hes : nat -> R) (m : nat)
  (acc : MatrixXd R * nat * list (event R)) (n : nat)
  : MatrixXd R * nat * list (event R) :=
  let '(dd, ind, out) := acc in
  if rneq (hes ind) (hes ind)
  then (dd, S ind, out ++ [HessianNaN m n])
  else (mset dd m n (radd (mget dd m n) (hes ind)), S ind, out).

Definition ddf_row (N : nat) (hes : nat -> R)
  (acc : MatrixXd R * nat * list (event R)) (m : nat)
  : MatrixXd R * nat * list (event R) :=
  fold_left (ddf_elem hes m) (seq 0 N) acc.

Definition ddf_point (N : nat) (_params : VectorXd R)
  (acc : MatrixXd R * list (event R)) (it : PointXYZ R)
  : MatrixXd R * list (event R) :=
  let x := pt_x it in
  let y := pt_y it in
  let z := pt_z it in
  let hes := hessian_ X (sq_args _params) x y z in
  let '(dd, _, out) := fold_left (ddf_row N hes) (seq 0 N) (fst acc, 0%nat, snd acc) in
  (dd, out).

(** minimizer::ddf: the Hessian and the diagnostics it prints. *)
Definition ddf (m : minimizer R) (_params : VectorXd R)
  : MatrixXd R * list (event R) :=
  let N := mNumParams m in
  let ddf0 :=
    fold_left (fun d i => fold_left (fun d' j => mset d' i j rzero) (seq 0 N) d)
              (seq 0 N) (MZero N N) in
  fold_left (ddf_point N _params) (mSamples m) (ddf0, []).

(** ** The solver *)

(** The variables of [minimize] that live across iterations.  [H], [J]
    and [oldParams] start empty and [error] is unassigned until the first
    pass of the body, which is why the loop is entered unconditionally. *)
Record loop_state : Type := mkLoop {
  st_obj : minimizer R;
  st_H : MatrixXd R;
  st_J : VectorXd R;
  st_dH : MatrixXd R;
  st_oldParams : VectorXd R;
  st_iter : Z;
  st_error : R;
  st_out : list (event R)
}.

(** [for( i ... ) dH(i,i) = H(i,i)]. *)
Definition damping (N : nat) (H dH : MatrixXd R) : MatrixXd R :=
  fold_left (fun d i => mset d i i (mget H i i)) (seq 0 N) dH.

(** The body of the do-while loop. *)
Definition body (s : loop_state) : loop_state :=
  let m := st_obj s in
  let oldParams := mParams m in
  let '(H, outH) := ddf m (mParams m) in
  let '(J, outJ) := df m (mParams m) in
  let dH := damping (mNumParams m) H (st_dH s) in
  let newParams :=
    vsub (mParams m) (mvmul (inverse X (madd H (mscale (mLambda m) dH))) J) in
  let iter := (st_iter s + 1)%Z in
  let error := norm X (vsub newParams oldParams) in
  {| st_obj := set_mParams m newParams;
     st_H := H; st_J := J; st_dH := dH;
     st_oldParams := oldParams;
     st_iter := iter; st_error := error;
     st_out := st_out s ++ outH ++ outJ ++ [IterError iter error] |}.

(** [while( iter < mMaxIter && error > mMinThresh )]. *)
Definition continue (s : loop_state) : bool :=
  (st_iter s <? mMaxIter (st_obj s))%Z && rgt (st_error s) (mMinThresh (st_obj s)).

Fixpoint do_while (fuel : nat) (s : loop_state) : option loop_state :=
  match fuel with
  | O => None
  | S fuel' =>
      let s' := body s in
      if continue s' then do_while fuel' s' else Some s'
  end.

(** The state on entry to the loop, after [mParams << params2Vec(_par_in)]. *)
Definition loop_init (m : minimizer R) (_par_in : SQ_params X) : loop_state :=
  let m0 := set_mParams m (params2Vec X _par_in) in
  {| st_obj := m0;
     st_H := []; st_J := [];
     st_dH := Identity (mNumParams m) (mNumParams m);
     st_oldParams := [];
     st_iter := 0; st_error := rzero;
     st_out := [InitialGuess (mParams m0)] |}.

(** The loop never runs more than max(1, mMaxIter) times. *)
Definition fuel_of (m : minimizer R) : nat := Z.to_nat (Z.max 1 (mMaxIter m)).

Definition minimize_loop (m : minimizer R) (_par_in : SQ_params X) : option loop_state :=
  do_while (fuel_of m) (loop_init m _par_in).

(** What a call of [minimize] leaves behind: the returned flag, the
    contents of [_par_out], the object, and the text printed. *)
Record fit : Type := mkFit {
  fit_ok : bool;
  fit_par_out : SQ_params X;
  fit_obj : minimizer R;
  fit_out : list (event R)
}.

Definition finish (s : loop_state) (_par_out : SQ_params X) : fit :=
  let m := st_obj s in
  let out := vec2Param X (mParams m) _par_out in
  if (mMaxIter m <=? st_iter s)%Z
  then {| fit_ok := false; fit_par_out := out; fit_obj := m;
          fit_out := st_out s ++ [Bad (st_iter s) (mParams m)] |}
  else {| fit_ok := true; fit_par_out := out; fit_obj := m;
          fit_out := st_out s ++ [Good (st_iter s) (mParams m) (st_J s) (st_H s)] |}.

(** minimizer::minimize. *)
Definition minimize (m : minimizer R) (_par_in _par_out : SQ_params X) : option fit :=
  match minimize_loop m _par_in with
  | Some s => Some (finish s _par_out)
  | None => None
  end.

(** Repeated fits on one object, as a multi-scale driver runs them. *)
Fixpoint refit (m : minimizer R) (guesses : list (SQ_params X)) : option (minimizer R) :=
  match guesses with
  | [] => Some m
  | g :: rest =>
      match minimize m g g with
      | Some r => refit (fit_obj r) rest
      | None => None
      end
  end.

(** The states of the loop: [run m g k] is the state after [k] passes. *)
Definition run (m : minimizer R) (_par_in : SQ_params X) (k : nat) : loop_state :=
  Nat.iter k body (loop_init m _par_in).

End Model.

(** ** Two scalar types *)

(** IEEE binary64, the [double] of the program.  The two literals are
    written in hexadecimal so that they denote exactly the doubles nearest
    to 0.1 and 0.005. *)
#[export] Instance float_scalar : Scalar float := {|
  rzero := 0%float;
  rone := 1%float;
  radd := PrimFloat.add;
  rsub := PrimFloat.sub;
  rmul := PrimFloat.mul;
  rneq := fun x y => negb (PrimFloat.eqb x y);
  rgt := fun x y => PrimFloat.ltb y x;
  rle := PrimFloat.leb;
  lit_0_1 := 0x1.999999999999ap-4%float;
  lit_0_005 := 0x1.47ae147ae147bp-8%float
|}.

(** Exact rational arithmetic. *)
#[export] Instance Qc_scalar : Scalar Qc := {|
  rzero := Q2Qc 0;
  rone := Q2Qc 1;
  radd := Qcplus;
  rsub := Qcminus;
  rmul := Qcmult;
  rneq := fun x y => negb (Qc_eq_bool x y);
  rgt := fun x y => match (x ?= y)%Qc with Gt => true | _ => false end;
  rle := fun x y => match (x ?= y)%Qc with Gt => false | _ => true end;
  lit_0_1 := Q2Qc (1 # 10);
  lit_0_005 := Q2Qc (5 # 1000)
|}.

(** ** Stand-ins for the external code, for running the model

    A Gauss-Jordan inverse without pivoting, generic in the division, and
    the Euclidean norm on doubles. *)

Definition gj_step {R : Type} {SR : Scalar R} (rdiv : R -> R -> R)
  (i : nat) (A : MatrixXd R) : MatrixXd R :=
  let ri := nth i A [] in
  let p := nth i ri rzero in
  let ri' := map (fun x => rdiv x p) ri in
  map (fun kr =>
         if Nat.eqb (fst kr) i then ri'
         else map2 (fun x y => rsub x (rmul (nth i (snd kr) rzero) y)) (snd kr) ri')
      (combine (seq 0 (length A)) A).

Definition gj_inverse {R : Type} {SR : Scalar R} (rdiv : R -> R -> R)
  (M : MatrixXd R) : MatrixXd R :=
  let n := length M in
  map (skipn n)
      (fold_left (fun A i => gj_step rdiv i A) (seq 0 n) (map2 (@app R) M (Identity n n))).

Definition euclid_norm (v : VectorXd float) : float :=
  PrimFloat.sqrt (fold_left (fun acc x => (acc + x * x)%float) v 0%float).

(** A convex bowl on doubles: the gradient contribution of every point is
    the parameter vector itself and its Hessian contribution the identity. *)
Definition X_bowl : Extern float :=
  {| SQ_params := list float;
     params2Vec := fun p => p;
     vec2Param := fun v _ => v;
     jac_ := fun a _ _ _ n => nth n a 0%float;
     hessian_ := fun _ _ _ _ ind =>
       if Nat.eqb (ind / 11) (ind mod 11) then 1%float else 0%float;
     inverse := gj_inverse PrimFloat.div;
     norm := euclid_norm |}.

(** Derivative formulas on doubles whose first element divides [x] by [y]
    (not a number at x = y = 0) and whose other elements are [z]. *)
Definition X_ratio : Extern float :=
  {| SQ_params := list float;
     params2Vec := fun p => p;
     vec2Param := fun v _ => v;
     jac_ := fun _ x y z n => match n with O => (x / y)%float | _ => z end;
     hessian_ := fun _ x y z ind => match ind with O => (x / y)%float | _ => z end;
     inverse := gj_inverse PrimFloat.div;
     norm := euclid_norm |}.

(** The bowl in exact arithmetic, scaled so that H + 0.1 diag(H) is the
    identity. *)
Definition X_exact : Extern Qc :=
  {| SQ_params := list Qc;
     params2Vec := fun p => p;
     vec2Param := fun v _ => v;
     jac_ := fun a _ _ _ n => nth n a (Q2Qc 0);
     hessian_ := fun _ _ _ _ ind =>
       if Nat.eqb (ind / 11) (ind mod 11) then Q2Qc (10 # 11) else Q2Qc 0;
     inverse := gj_inverse Qcdiv;
     norm := fun v => fold_left (fun acc x => (acc + x * x)%Qc) v (Q2Qc 0) |}.

Definition origin : PointXYZ float := mkPoint 0%float 0%float 0%float.
Definition pole : PointXYZ float := mkPoint 0%float 0%float 1%float.
Definition unit_x : list float :=
  [1; 0; 0; 0; 0; 0; 0; 0; 0; 0; 0]%float.

Definition unit_x_exact : list Qc :=
  map Q2Qc [1; 0; 0; 0; 0; 0; 0; 0; 0; 0; 0]%Q.

Definition zero_x_exact : list Qc :=
  map Q2Qc [0; 0; 0; 0; 0; 0; 0; 0; 0; 0; 0]%Q.
Definition origin_exact : PointXYZ Qc := mkPoint (Q2Qc 0) (Q2Qc 0) (Q2Qc 0).
Definition pole_exact : PointXYZ Qc := mkPoint (Q2Qc 0) (Q2Qc 0) (Q2Qc 1).

(** Objects as the constructor and [loadPoints] leave them: no points,
    one point at the origin, one point on the z axis, and a point at the
    origin in exact arithmetic. *)
Definition m_empty : minimizer float := minimizer_ctor.
Definition m_origin : minimizer float := snd (fst (loadPoints minimizer_ctor [origin])).
Definition m_pole : minimizer float := snd (fst (loadPoints minimizer_ctor [pole])).
Definition m_exact : minimizer Qc :=
  snd (fst (loadPoints minimizer_ctor [mkPoint (Q2Qc 0) (Q2Qc 0) (Q2Qc 0)])).

(** The object [m_origin] with the iteration cap lowered. *)
Definition with_cap (cap : Z) : minimizer float :=
  {| mSamples := mSamples m_origin; mParams := mParams m_origin;
     mLambda := mLambda m_origin; mMaxIter := cap;
     mMinThresh := mMinThresh m_origin; mNumParams := mNumParams m_origin |}.

(** Boolean equality of exact matrices. *)
Definition Qc_meqb (A B : MatrixXd Qc) : bool :=
  (length A =? length B)%nat &&
  forallb (fun ab => (length (fst ab) =? length (snd ab))%nat &&
                     forallb (fun xy => Qc_eq_bool (fst xy) (snd xy))
                             (combine (fst ab) (snd ab)))
          (combine A B).

(** Dimension check of a concrete matrix. *)
Definition is_matrixb {R : Type} (r c : nat) (M : MatrixXd R) : bool :=
  (length M =? r)%nat && forallb (fun row => (length row =? c)%nat) M.

(** ** The sentences of the specification, as written

    The sums of the evaluator, with and without the not-a-number guard. *)

Section Spec.

Context {R : Type} {SR : Scalar R} (X : Extern R).

Definition plain_sum (f : PointXYZ R -> R) (pts : list (PointXYZ R)) : R :=
  fold_left (fun acc it => radd acc (f it)) pts rzero.

Definition guarded_sum (f : PointXYZ R -> R) (pts : list (PointXYZ R)) : R :=
  fold_left (fun acc it => if rneq (f it) (f it) then acc else radd acc (f it)) pts rzero.

(** Element [n] of the first-derivative formula, and element [ind] of the
    second-derivative formula, at a point. *)
Definition jac_at (_params : VectorXd R) (n : nat) (it : PointXYZ R) : R :=
  jac_ X (sq_args _params) (pt_x it) (pt_y it) (pt_z it) n.
Definition hes_at (_params : VectorXd R) (ind : nat) (it : PointXYZ R) : R :=
  hessian_ X (sq_args _params) (pt_x it) (pt_y it) (pt_z it) ind.

(** "each component is the sum over all sample points of the corresponding
    component of the external formula". *)
Definition spec_sum_over_all_points (m : minimizer R) (_params : VectorXd R) : Prop :=
  fst (df X m _params)
  = map (fun n => plain_sum (jac_at _params n) (mSamples m)) (seq 0 11)
  /\ fst (ddf X m _params)
     = map (fun i => map (fun j => plain_sum (hes_at _params (i * 11 + j)) (mSamples m))
                         (seq 0 11))
           (seq 0 11).

(** "injecting a single point whose coordinates force a not-a-number
    contribution yields the same aggregation as omitting that point". *)
Definition spec_nan_point_omitted (m : minimizer R) (_params : VectorXd R)
  (pre : list (PointXYZ R)) (bad : PointXYZ R) (post : list (PointXYZ R)) : Prop :=
  (exists n, (n < 11)%nat /\ rneq (jac_at _params n bad) (jac_at _params n bad) = true) ->
  fst (df X (set_mSamples m (pre ++ bad :: post)) _params)
  = fst (df X (set_mSamples m (pre ++ post)) _params).

(** What one pass of either inner loop does to one accumulated value, and
    the diagnostics one point causes in [df] and in [ddf]. *)
Definition skip_nan (x acc : R) : R := if rneq x x then acc else radd acc x.

Definition jac_nans (N : nat) (_params : VectorXd R) (it : PointXYZ R) : list (event R) :=
  map JacobianNaN
      (filter (fun n => rneq (jac_at _params n it) (jac_at _params n it)) (seq 0 N)).

Definition hes_nans (N : nat) (_params : VectorXd R) (it : PointXYZ R) : list (event R) :=
  flat_map (fun i =>
              map (HessianNaN i)
                  (filter (fun j => rneq (hes_at _params (i * N + j) it)
                                         (hes_at _params (i * N + j) it))
                          (seq 0 N)))
           (seq 0 N).

(** Two states of the object that differ at most in [mParams]. *)
Definition same_config (m m' : minimizer R) : Prop :=
  mSamples m' = mSamples m /\ mLambda m' = mLambda m /\ mMaxIter m' = mMaxIter m /\
  mMinThresh m' = mMinThresh m /\ mNumParams m' = mNumParams m.

(** The step size printed at pass [k] of the loop. *)
Definition error_at (m : minimizer R) (_par_in : SQ_params X) (k : nat) : R :=
  st_error (run X m _par_in k).

(** "forms the update as the solution of the linear system
    (H + lambda D) Delta = J, then updates params <- params - Delta", on
    pass k + 1, with Delta the update the code computes. *)
Definition spec_update_solves_system (m : minimizer R) (g : SQ_params X) (k : nat) : Prop :=
  let s := run X m g k in
  let params := mParams (st_obj s) in
  let H := fst (ddf X (st_obj s) params) in
  let J := fst (df X (st_obj s) params) in
  let M := madd H (mscale (mLambda m) (st_dH (run X m g (S k)))) in
  let Delta := mvmul (inverse X M) J in
  mParams (st_obj (run X m g (S k))) = vsub params Delta /\ mvmul M Delta = J.

(** "success if and only if the step size drops to <= MinThreshold before
    the iteration count reaches MaxIterations". *)
Definition spec_success_iff_small_step
  (m : minimizer R) (_par_in _par_out : SQ_params X) : Prop :=
  exists r s,
    minimize X m _par_in _par_out = Some r /\
    minimize_loop X m _par_in = Some s /\
    (fit_ok r = true <->
     exists k, (1 <= k)%nat /\ (Z.of_nat k <= st_iter s)%Z /\
               (Z.of_nat k < mMaxIter m)%Z /\
               rle (error_at m _par_in k) (mMinThresh m) = true).

End Spec.

(** ** The object over its life, and what one fit prints *)

Section Life.

Context {R : Type} {SR : Scalar R} (X : Extern R).

(** The objects a program can hold: built by the constructor, then
    changed by [loadPoints] (from a cloud) and by [minimize]. *)
Inductive reachable : minimizer R -> Prop :=
| reach_ctor : reachable minimizer_ctor
| reach_load (m : minimizer R) (cloud : list (PointXYZ R)) :
    reachable m -> reachable (snd (fst (loadPoints m cloud)))
| reach_fit (m : minimizer R) (g out : SQ_params X) (r : fit X) :
    reachable m -> minimize X m g out = Some r -> reachable (fit_obj r).

(** What pass [j + 1] of the loop prints: the diagnostics of [ddf], those
    of [df], then the line with the count and the step size. *)
Definition pass_output (m : minimizer R) (g : SQ_params X) (j : nat) : list (event R) :=
  let s := run X m g j in
  snd (ddf X (st_obj s) (mParams (st_obj s)))
  ++ snd (df X (st_obj s) (mParams (st_obj s)))
  ++ [IterError (Z.of_nat (S j)) (error_at X m g (S j))].

(** The closing lines of [minimize] after [k] passes. *)
Definition summary (m : minimizer R) (g : SQ_params X) (k : nat) : event R :=
  let s := run X m g k in
  if (mMaxIter m <=? Z.of_nat k)%Z
  then Bad (Z.of_nat k) (mParams (st_obj s))
  else Good (Z.of_nat k) (mParams (st_obj s)) (st_J s) (st_H s).

(** The matrix inverted on a pass from parameters [params]. *)
Definition damped_matrix (m : minimizer R) (params : VectorXd R) : MatrixXd R :=
  let H := fst (ddf X m params) in
  madd H (mscale (mLambda m) (damping (mNumParams m) H (Identity (mNumParams m) (mNumParams m)))).

(** One pass as a function of the parameters alone. *)
Definition newton_step (m : minimizer R) (params : VectorXd R) : VectorXd R :=
  vsub params (mvmul (inverse X (damped_matrix m params)) (fst (df X m params))).

End Life.

(** * Properties *)

(** ** Arrays *)

Section ArrayFacts.

Context {A : Type}.

Lemma set_nth_length (l : list A) (i : nat) (x : A) :
  length (set_nth l i x) = length l.
Proof.
  revert i; induction l as [|h t IH]; intros [|i]; simpl; auto.
Qed.

Lemma nth_set_nth_same (l : list A) (i : nat) (x d : A) :
  i < length l -> nth i (set_nth l i x) d = x.
Proof.
  revert i; induction l as [|h t IH]; intros [|i] Hi; simpl in *; try lia; auto.
  apply IH; lia.
Qed.

Lemma nth_set_nth_other (l : list A) (i j : nat) (x d : A) :
  i <> j -> nth j (set_nth l i x) d = nth j l d.
Proof.
  revert i j; induction l as [|h t IH]; intros [|i] [|j] Hij; simpl; auto; try lia.
Qed.

Lemma set_nth_beyond (l : list A) (i : nat) (x : A) :
  length l <= i -> set_nth l i x = l.
Proof.
  revert i; induction l as [|h t IH]; intros [|i] Hi; simpl in *; auto; try lia.
  f_equal; apply IH; lia.
Qed.

Lemma set_nth_repeat (z : A) (n i : nat) : set_nth (repeat z n) i z = repeat z n.
Proof.
  revert i; induction n as [|n IH]; intros [|i]; simpl; auto.
  f_equal; apply IH.
Qed.

Lemma map_seq_nth (f : nat -> A) (n j : nat) (d : A) :
  j < n -> nth j (map f (seq 0 n)) d = f j.
Proof.
  intros Hj.
  rewrite (nth_indep _ d (f 0)) by (rewrite length_map, length_seq; exact Hj).
  rewrite map_nth, seq_nth by exact Hj. reflexivity.
Qed.

Lemma eq_map_seq (f : nat -> A) (l : list A) (d : A) :
  (forall j, j < length l -> nth j l d = f j) -> l = map f (seq 0 (length l)).
Proof.
  intros H. apply (nth_ext _ _ d d).
  - now rewrite length_map, length_seq.
  - intros j Hj. rewrite map_seq_nth by exact Hj. now apply H.
Qed.

End ArrayFacts.

Lemma map2_length {A B C : Type} (f : A -> B -> C) (l1 : list A) (l2 : list B) :
  length (map2 f l1 l2) = Nat.min (length l1) (length l2).
Proof.
  revert l2; induction l1 as [|a t IH]; intros [|b t2]; simpl; auto.
Qed.

Section Evaluator.

Context {R : Type} {SR : Scalar R} (X : Extern R).

Lemma guarded_sum_fold (f : PointXYZ R -> R) (pts : list (PointXYZ R)) :
  guarded_sum f pts = fold_left (fun acc it => skip_nan (f it) acc) pts rzero.
Proof. reflexivity. Qed.

Lemma VZero_length (n : nat) : length (VZero n) = n.
Proof. apply repeat_length. Qed.

Lemma VZero_nth (n j : nat) : nth j (VZero n) rzero = rzero.
Proof.
  unfold VZero. destruct (Nat.lt_ge_cases j n) as [H|H].
  - now apply nth_repeat_lt.
  - apply nth_overflow. now rewrite repeat_length.
Qed.

(** *** The gradient *)

Lemma df_elem_spec (jac : nat -> R) (acc : VectorXd R * list (event R)) (n : nat) :
  length (fst (df_elem jac acc n)) = length (fst acc) /\
  (forall j, j < length (fst acc) ->
             nth j (fst (df_elem jac acc n)) rzero
             = if Nat.eqb n j then skip_nan (jac j) (nth j (fst acc) rzero)
               else nth j (fst acc) rzero) /\
  snd (df_elem jac acc n)
  = snd acc ++ (if rneq (jac n) (jac n) then [JacobianNaN n] else []).
Proof.
  unfold df_elem, skip_nan, vset, vget.
  destruct (rneq (jac n) (jac n)) eqn:E; simpl.
  - repeat split; auto. intros j _. destruct (Nat.eqb_spec n j); subst; auto.
    now rewrite E.
  - rewrite set_nth_length, app_nil_r. repeat split; auto.
    intros j Hj. destruct (Nat.eqb_spec n j) as [->|Hne].
    + rewrite E. now apply nth_set_nth_same.
    + now apply nth_set_nth_other.
Qed.

Lemma df_row_spec (jac : nat -> R) (k s : nat) (acc : VectorXd R * list (event R)) :
  length (fst (fold_left (df_elem jac) (seq s k) acc)) = length (fst acc) /\
  (forall j, j < length (fst acc) ->
             nth j (fst (fold_left (df_elem jac) (seq s k) acc)) rzero
             = if (s <=? j) && (j <? s + k)
               then skip_nan (jac j) (nth j (fst acc) rzero)
               else nth j (fst acc) rzero) /\
  snd (fold_left (df_elem jac) (seq s k) acc)
  = snd acc ++ map JacobianNaN (filter (fun n => rneq (jac n) (jac n)) (seq s k)).
Proof.
  revert s acc; induction k as [|k IH]; intros s acc; simpl.
  - rewrite app_nil_r. repeat split; auto. intros j _.
    replace (j <? s + 0) with (j <? s) by (f_equal; lia).
    destruct (Nat.leb_spec s j), (Nat.ltb_spec j s); simpl; auto; lia.
  - destruct (df_elem_spec jac acc s) as (Hl & Hn & Ho).
    destruct (IH (S s) (df_elem jac acc s)) as (Hl' & Hn' & Ho').
    split; [congruence|]. split.
    + intros j Hj. rewrite Hn' by (rewrite Hl; exact Hj). rewrite Hn by exact Hj.
      destruct (Nat.eqb_spec s j) as [->|Hne].
      * replace (S j <=? j) with false by (symmetry; apply Nat.leb_gt; lia).
        replace (j <=? j) with true by (symmetry; apply Nat.leb_le; lia).
        replace (j <? j + S k) with true by (symmetry; apply Nat.ltb_lt; lia).
        reflexivity.
      * replace (j <? S s + k) with (j <? s + S k) by (f_equal; lia).
        replace (S s <=? j) with (s <=? j); [reflexivity|].
        destruct (Nat.leb_spec s j), (Nat.leb_spec (S s) j); auto; lia.
    + rewrite Ho', Ho, <- app_assoc. f_equal.
      destruct (rneq (jac s) (jac s)); reflexivity.
Qed.

Lemma df_point_spec (N : nat) (p : VectorXd R)
  (acc : VectorXd R * list (event R)) (it : PointXYZ R) :
  length (fst acc) = N ->
  length (fst (df_point X N p acc it)) = N /\
  (forall j, j < N ->
             nth j (fst (df_point X N p acc it)) rzero
             = skip_nan (jac_at X p j it) (nth j (fst acc) rzero)) /\
  snd (df_point X N p acc it) = snd acc ++ jac_nans X N p it.
Proof.
  intros HN. unfold df_point.
  destruct (df_row_spec (jac_ X (sq_args p) (pt_x it) (pt_y it) (pt_z it)) N 0 acc)
    as (Hl & Hn & Ho).
  split; [congruence|]. split; [|exact Ho].
  intros j Hj. rewrite Hn by (rewrite HN; exact Hj).
  replace (j <? 0 + N) with true by (symmetry; apply Nat.ltb_lt; lia).
  reflexivity.
Qed.

Lemma df_points_spec (N : nat) (p : VectorXd R) (pts : list (PointXYZ R))
  (acc : VectorXd R * list (event R)) :
  length (fst acc) = N ->
  length (fst (fold_left (df_point X N p) pts acc)) = N /\
  (forall j, j < N ->
             nth j (fst (fold_left (df_point X N p) pts acc)) rzero
             = fold_left (fun v it => skip_nan (jac_at X p j it) v) pts
                         (nth j (fst acc) rzero)) /\
  snd (fold_left (df_point X N p) pts acc)
  = snd acc ++ flat_map (jac_nans X N p) pts.
Proof.
  revert acc; induction pts as [|it pts IH]; intros acc HN; simpl.
  - rewrite app_nil_r. auto.
  - destruct (df_point_spec p acc it HN) as (Hl & Hn & Ho).
    destruct (IH _ Hl) as (Hl' & Hn' & Ho').
    split; [exact Hl'|]. split.
    + intros j Hj. rewrite Hn', Hn by exact Hj. reflexivity.
    + rewrite Ho', Ho, <- app_assoc. reflexivity.
Qed.

Lemma df_zeroing (N : nat) (l : list nat) :
  fold_left (fun d n => vset d n rzero) l (VZero N) = VZero N.
Proof.
  induction l as [|n l IH]; simpl; auto.
  unfold vset, VZero in *. now rewrite set_nth_repeat.
Qed.

(** The gradient, element by element, and what [df] prints. *)
Lemma df_gradient (m : minimizer R) (p : VectorXd R) :
  fst (df X m p)
  = map (fun n => guarded_sum (jac_at X p n) (mSamples m)) (seq 0 (mNumParams m)) /\
  snd (df X m p) = flat_map (jac_nans X (mNumParams m) p) (mSamples m).
Proof.
  unfold df. rewrite df_zeroing.
  destruct (df_points_spec p (mSamples m) (VZero (mNumParams m), [])
              (VZero_length _)) as (Hl & Hn & Ho).
  split; [|exact Ho].
  set (v := fst _) in *.
  replace (mNumParams m) with (length v) at 1 by exact Hl.
  apply eq_map_seq with (d := rzero).
  intros j Hj. rewrite Hl in Hj. rewrite Hn by exact Hj.
  simpl. rewrite VZero_nth. reflexivity.
Qed.

Lemma df_length (m : minimizer R) (p : VectorXd R) :
  length (fst (df X m p)) = mNumParams m.
Proof.
  destruct (df_gradient m p) as [-> _]. now rewrite length_map, length_seq.
Qed.

(** *** Matrices *)

Lemma mset_is_matrix (r c : nat) (M : MatrixXd R) (i j : nat) (x : R) :
  is_matrix r c M -> is_matrix r c (mset M i j x).
Proof.
  intros [Hr Hc]. unfold mset, is_matrix. rewrite set_nth_length. split; [exact Hr|].
  rewrite Forall_forall in *. intros row Hin.
  destruct (In_nth _ _ [] Hin) as (k & Hk & <-).
  rewrite set_nth_length in Hk.
  destruct (Nat.eq_dec i k) as [->|Hne].
  - rewrite nth_set_nth_same by exact Hk. rewrite set_nth_length.
    apply Hc. now apply nth_In.
  - rewrite nth_set_nth_other by exact Hne. apply Hc. now apply nth_In.
Qed.

Lemma mget_mset_same (r c : nat) (M : MatrixXd R) (i j : nat) (x : R) :
  is_matrix r c M -> i < r -> j < c -> mget (mset M i j x) i j = x.
Proof.
  intros [Hr Hc] Hi Hj. unfold mget, mset.
  rewrite nth_set_nth_same by lia.
  apply nth_set_nth_same.
  rewrite Forall_forall in Hc. rewrite (Hc (nth i M [])); [exact Hj|].
  apply nth_In. lia.
Qed.

Lemma mget_mset_other (M : MatrixXd R) (i j i' j' : nat) (x : R) :
  i <> i' \/ j <> j' -> mget (mset M i j x) i' j' = mget M i' j'.
Proof.
  intros Hne. unfold mget, mset.
  destruct (Nat.eq_dec i i') as [<-|Hi].
  - destruct Hne as [Hne|Hne]; [congruence|].
    destruct (Nat.lt_ge_cases i (length M)) as [Hlt|Hge].
    + rewrite nth_set_nth_same by exact Hlt. now apply nth_set_nth_other.
    + now rewrite set_nth_beyond by exact Hge.
  - now rewrite nth_set_nth_other by exact Hi.
Qed.

Lemma MZero_is_matrix (r c : nat) : is_matrix r c (MZero r c).
Proof.
  unfold is_matrix, MZero. rewrite repeat_length. split; [reflexivity|].
  apply Forall_forall. intros row Hin. apply repeat_spec in Hin. subst.
  apply repeat_length.
Qed.

Lemma MZero_mget (r c i j : nat) : mget (MZero r c) i j = rzero.
Proof.
  unfold mget, MZero. destruct (Nat.lt_ge_cases i r) as [H|H].
  - rewrite nth_repeat_lt by exact H. apply VZero_nth.
  - rewrite (nth_overflow (repeat (repeat rzero c) r)) by (now rewrite repeat_length).
    now destruct j.
Qed.

Lemma mset_MZero (r c i j : nat) : mset (MZero r c) i j rzero = MZero r c.
Proof.
  unfold mset, MZero. destruct (Nat.lt_ge_cases i r) as [H|H].
  - rewrite nth_repeat_lt by exact H. now rewrite !set_nth_repeat.
  - apply set_nth_beyond. now rewrite repeat_length.
Qed.

(** A matrix is determined by its dimensions and its coefficients. *)
Lemma matrix_eq_map_seq (r c : nat) (M : MatrixXd R) (f : nat -> nat -> R) :
  is_matrix r c M ->
  (forall i j, i < r -> j < c -> mget M i j = f i j) ->
  M = map (fun i => map (fun j => f i j) (seq 0 c)) (seq 0 r).
Proof.
  intros [Hr Hc] Hf. subst r.
  apply eq_map_seq with (d := @nil R). intros i Hi.
  assert (Hrow : length (nth i M []) = c).
  { rewrite Forall_forall in Hc. apply Hc. now apply nth_In. }
  rewrite <- Hrow. apply eq_map_seq with (d := rzero). intros j Hj.
  apply Hf; [exact Hi|]. now rewrite <- Hrow.
Qed.

(** *** The Hessian *)

Lemma ddf_elem_spec (N : nat) (hes : nat -> R) (m n : nat)
  (dd : MatrixXd R) (ind : nat) (out : list (event R)) :
  is_matrix N N dd ->
  exists dd',
    ddf_elem hes m (dd, ind, out) n
    = (dd', S ind, out ++ (if rneq (hes ind) (hes ind) then [HessianNaN m n] else []))
    /\ is_matrix N N dd'
    /\ forall i j, i < N -> j < N ->
         mget dd' i j = if Nat.eqb i m && Nat.eqb j n
                        then skip_nan (hes ind) (mget dd i j)
                        else mget dd i j.
Proof.
  intros HM. unfold ddf_elem, skip_nan.
  destruct (rneq (hes ind) (hes ind)) eqn:E.
  - exists dd. split; [reflexivity|]. split; [exact HM|]. intros i j _ _.
    now destruct (Nat.eqb i m && Nat.eqb j n).
  - eexists. rewrite app_nil_r. split; [reflexivity|].
    split; [now apply mset_is_matrix|].
    intros i j Hi Hj.
    destruct (Nat.eqb_spec i m) as [->|Him]; simpl.
    + destruct (Nat.eqb_spec j n) as [->|Hjn].
      * apply mget_mset_same with (r := N) (c := N); assumption.
      * apply mget_mset_other. right. congruence.
    + apply mget_mset_other. left. congruence.
Qed.

Lemma ddf_row_spec (N : nat) (hes : nat -> R) (m k s : nat)
  (dd : MatrixXd R) (ind : nat) (out : list (event R)) :
  is_matrix N N dd ->
  exists dd',
    fold_left (ddf_elem hes m) (seq s k) (dd, ind, out)
    = (dd', ind + k,
       out ++ map (HessianNaN m)
                  (filter (fun n => rneq (hes (ind + (n - s))) (hes (ind + (n - s))))
                          (seq s k)))
    /\ is_matrix N N dd'
    /\ forall i j, i < N -> j < N ->
         mget dd' i j = if Nat.eqb i m && (s <=? j) && (j <? s + k)
                        then skip_nan (hes (ind + (j - s))) (mget dd i j)
                        else mget dd i j.
Proof.
  revert s dd ind out; induction k as [|k IH]; intros s dd ind out HM;
    cbn [seq fold_left].
  - exists dd. cbn [filter map]. rewrite app_nil_r, Nat.add_0_r.
    split; [reflexivity|]. split; [exact HM|].
    intros i j _ _.
    destruct (Nat.leb_spec s j), (Nat.ltb_spec j (s + 0)); try lia;
      now rewrite ?andb_false_r.
  - destruct (ddf_elem_spec hes m s ind out HM) as (d1 & E1 & HM1 & G1).
    rewrite E1.
    destruct (IH (S s) d1 (S ind)
                 (out ++ (if rneq (hes ind) (hes ind) then [HessianNaN m s] else []))
                 HM1) as (d2 & E2 & HM2 & G2).
    exists d2. split; [|split; [exact HM2|]].
    + rewrite E2. f_equal; [f_equal; lia|].
      rewrite <- app_assoc. f_equal. cbn [filter].
      rewrite Nat.sub_diag, Nat.add_0_r.
      assert (Hf : filter (fun n => rneq (hes (S ind + (n - S s))) (hes (S ind + (n - S s))))
                          (seq (S s) k)
                   = filter (fun n => rneq (hes (ind + (n - s))) (hes (ind + (n - s))))
                            (seq (S s) k)).
      { apply filter_ext_in. intros n Hn. apply in_seq in Hn.
        replace (S ind + (n - S s)) with (ind + (n - s)) by lia. reflexivity. }
      rewrite Hf. destruct (rneq (hes ind) (hes ind)); reflexivity.
    + intros i j Hi Hj. rewrite G2, G1 by assumption.
      destruct (Nat.eqb_spec i m) as [->|Him]; cbn [andb]; [|reflexivity].
      destruct (Nat.eqb_spec j s) as [->|Hjs].
      * replace (S s <=? s) with false by (symmetry; apply Nat.leb_gt; lia).
        replace (s <=? s) with true by (symmetry; apply Nat.leb_le; lia).
        replace (s <? s + S k) with true by (symmetry; apply Nat.ltb_lt; lia).
        cbn [andb]. now rewrite Nat.sub_diag, Nat.add_0_r.
      * replace (j <? S s + k) with (j <? s + S k) by (f_equal; lia).
        destruct (Nat.leb_spec (S s) j), (Nat.leb_spec s j); cbn [andb]; try lia; auto.
        replace (S ind + (j - S s)) with (ind + (j - s)) by lia. reflexivity.
Qed.

Lemma flat_map_ext_seq {B : Type} (f g : nat -> list B) (s k : nat) :
  (forall i, s <= i < s + k -> f i = g i) ->
  flat_map f (seq s k) = flat_map g (seq s k).
Proof.
  intros H. rewrite !flat_map_concat_map. f_equal.
  apply map_ext_in. intros i Hi. apply in_seq in Hi. now apply H.
Qed.

Lemma ddf_rows_spec (N : nat) (hes : nat -> R) (k s : nat)
  (dd : MatrixXd R) (ind : nat) (out : list (event R)) :
  is_matrix N N dd ->
  exists dd',
    fold_left (ddf_row N hes) (seq s k) (dd, ind, out)
    = (dd', ind + k * N,
       out ++ flat_map
                (fun i => map (HessianNaN i)
                              (filter (fun j => rneq (hes (ind + (i - s) * N + j))
                                                     (hes (ind + (i - s) * N + j)))
                                      (seq 0 N)))
                (seq s k))
    /\ is_matrix N N dd'
    /\ forall i j, i < N -> j < N ->
         mget dd' i j = if (s <=? i) && (i <? s + k)
                        then skip_nan (hes (ind + (i - s) * N + j)) (mget dd i j)
                        else mget dd i j.
Proof.
  revert s dd ind out; induction k as [|k IH]; intros s dd ind out HM;
    cbn [seq fold_left flat_map].
  - exists dd. rewrite app_nil_r, Nat.add_0_r.
    split; [reflexivity|]. split; [exact HM|]. intros i j _ _.
    destruct (Nat.leb_spec s i), (Nat.ltb_spec i (s + 0)); try lia; reflexivity.
  - unfold ddf_row at 2.
    destruct (ddf_row_spec hes s N 0 ind out HM) as (d1 & E1 & HM1 & G1).
    rewrite E1.
    destruct (IH (S s) d1 (ind + N)
                 (out ++ map (HessianNaN s)
                             (filter (fun n => rneq (hes (ind + (n - 0))) (hes (ind + (n - 0))))
                                     (seq 0 N)))
                 HM1) as (d2 & E2 & HM2 & G2).
    exists d2. split; [|split; [exact HM2|]].
    + rewrite E2. f_equal; [f_equal; lia|].
      rewrite <- app_assoc. f_equal. f_equal.
      * f_equal. apply filter_ext. intros j.
        rewrite Nat.sub_diag, Nat.sub_0_r. cbn [Nat.mul]. now rewrite Nat.add_0_r.
      * apply flat_map_ext_seq. intros i Hi. f_equal.
        apply filter_ext. intros j.
        replace (ind + N + (i - S s) * N + j) with (ind + (i - s) * N + j);
          [reflexivity|].
        replace (i - s) with (S (i - S s)) by lia. cbn [Nat.mul]. lia.
    + intros i j Hi Hj. rewrite G2, G1 by assumption.
      replace (j <? 0 + N) with true by (symmetry; apply Nat.ltb_lt; lia).
      replace (0 <=? j) with true by (symmetry; apply Nat.leb_le; lia).
      rewrite !andb_true_r.
      destruct (Nat.eqb_spec i s) as [->|His].
      * replace (S s <=? s) with false by (symmetry; apply Nat.leb_gt; lia).
        replace (s <=? s) with true by (symmetry; apply Nat.leb_le; lia).
        replace (s <? s + S k) with true by (symmetry; apply Nat.ltb_lt; lia).
        cbn [andb]. rewrite Nat.sub_diag, Nat.sub_0_r. cbn [Nat.mul].
        now rewrite Nat.add_0_r.
      * replace (i <? S s + k) with (i <? s + S k) by (f_equal; lia).
        destruct (Nat.leb_spec (S s) i), (Nat.leb_spec s i); cbn [andb]; try lia; auto.
        replace (ind + N + (i - S s) * N + j) with (ind + (i - s) * N + j);
          [reflexivity|].
        replace (i - s) with (S (i - S s)) by lia. cbn [Nat.mul]. lia.
Qed.

Lemma ddf_point_spec (N : nat) (p : VectorXd R)
  (acc : MatrixXd R * list (event R)) (it : PointXYZ R) :
  is_matrix N N (fst acc) ->
  is_matrix N N (fst (ddf_point X N p acc it)) /\
  (forall i j, i < N -> j < N ->
               mget (fst (ddf_point X N p acc it)) i j
               = skip_nan (hes_at X p (i * N + j) it) (mget (fst acc) i j)) /\
  snd (ddf_point X N p acc it) = snd acc ++ hes_nans X N p it.
Proof.
  intros HM. unfold ddf_point.
  destruct (ddf_rows_spec (hessian_ X (sq_args p) (pt_x it) (pt_y it) (pt_z it))
              N 0 0 (snd acc) HM) as (d1 & E1 & HM1 & G1).
  rewrite E1. cbn [fst snd]. split; [exact HM1|]. split.
  - intros i j Hi Hj. rewrite G1 by assumption.
    replace (i <? 0 + N) with true by (symmetry; apply Nat.ltb_lt; lia).
    cbn [Nat.leb andb Nat.add]. rewrite Nat.sub_0_r. reflexivity.
  - f_equal. unfold hes_nans. apply flat_map_ext_seq. intros i _.
    f_equal. apply filter_ext. intros j. rewrite Nat.sub_0_r. reflexivity.
Qed.

Lemma ddf_points_spec (N : nat) (p : VectorXd R) (pts : list (PointXYZ R))
  (acc : MatrixXd R * list (event R)) :
  is_matrix N N (fst acc) ->
  is_matrix N N (fst (fold_left (ddf_point X N p) pts acc)) /\
  (forall i j, i < N -> j < N ->
               mget (fst (fold_left (ddf_point X N p) pts acc)) i j
               = fold_left (fun v it => skip_nan (hes_at X p (i * N + j) it) v) pts
                           (mget (fst acc) i j)) /\
  snd (fold_left (ddf_point X N p) pts acc)
  = snd acc ++ flat_map (hes_nans X N p) pts.
Proof.
  revert acc; induction pts as [|it pts IH]; intros acc HM; cbn [fold_left flat_map].
  - rewrite app_nil_r. auto.
  - destruct (ddf_point_spec p acc it HM) as (HM1 & G1 & O1).
    destruct (IH _ HM1) as (HM2 & G2 & O2).
    split; [exact HM2|]. split.
    + intros i j Hi Hj. rewrite G2, G1 by assumption. reflexivity.
    + rewrite O2, O1, <- app_assoc. reflexivity.
Qed.

Lemma ddf_zeroing (N : nat) (rows cols : list nat) :
  fold_left (fun d i => fold_left (fun d' j => mset d' i j rzero) cols d) rows (MZero N N)
  = MZero N N.
Proof.
  induction rows as [|i rows IH]; cbn [fold_left]; auto.
  replace (fold_left (fun d' j => mset d' i j rzero) cols (MZero N N)) with (MZero N N);
    [exact IH|].
  clear. induction cols as [|j cols IH]; cbn [fold_left]; auto.
  now rewrite mset_MZero.
Qed.

(** The Hessian, entry by entry, and what [ddf] prints. *)
Lemma ddf_hessian (m : minimizer R) (p : VectorXd R) :
  fst (ddf X m p)
  = map (fun i =>
           map (fun j => guarded_sum (hes_at X p (i * mNumParams m + j)) (mSamples m))
               (seq 0 (mNumParams m)))
        (seq 0 (mNumParams m)) /\
  snd (ddf X m p) = flat_map (hes_nans X (mNumParams m) p) (mSamples m).
Proof.
  unfold ddf. rewrite ddf_zeroing.
  destruct (ddf_points_spec p (mSamples m) (MZero (mNumParams m) (mNumParams m), [])
              (MZero_is_matrix _ _)) as (HM & G & O).
  split; [|exact O].
  apply matrix_eq_map_seq; [exact HM|].
  intros i j Hi Hj. rewrite G by assumption. cbn [fst].
  rewrite MZero_mget. reflexivity.
Qed.

Lemma ddf_is_matrix (m : minimizer R) (p : VectorXd R) :
  is_matrix (mNumParams m) (mNumParams m) (fst (ddf X m p)).
Proof.
  unfold ddf. rewrite ddf_zeroing.
  apply (ddf_points_spec p (mSamples m) (MZero (mNumParams m) (mNumParams m), [])
           (MZero_is_matrix _ _)).
Qed.

Lemma ddf_mget (m : minimizer R) (p : VectorXd R) (i j : nat) :
  i < mNumParams m -> j < mNumParams m ->
  mget (fst (ddf X m p)) i j
  = guarded_sum (hes_at X p (i * mNumParams m + j)) (mSamples m).
Proof.
  intros Hi Hj. unfold ddf. rewrite ddf_zeroing.
  destruct (ddf_points_spec p (mSamples m) (MZero (mNumParams m) (mNumParams m), [])
              (MZero_is_matrix _ _)) as (_ & G & _).
  rewrite G by assumption. cbn [fst]. now rewrite MZero_mget.
Qed.

End Evaluator.

(** ** The solver loop *)

Section Solver.

Context {R : Type} {SR : Scalar R} (X : Extern R).

Lemma body_eq (s : loop_state) :
  body X s =
  let m := st_obj s in
  let H := fst (ddf X m (mParams m)) in
  let J := fst (df X m (mParams m)) in
  let dH := damping (mNumParams m) H (st_dH s) in
  let newParams :=
    vsub (mParams m) (mvmul (inverse X (madd H (mscale (mLambda m) dH))) J) in
  {| st_obj := set_mParams m newParams;
     st_H := H; st_J := J; st_dH := dH;
     st_oldParams := mParams m;
     st_iter := (st_iter s + 1)%Z;
     st_error := norm X (vsub newParams (mParams m));
     st_out := st_out s ++ snd (ddf X m (mParams m)) ++ snd (df X m (mParams m))
               ++ [IterError (st_iter s + 1)%Z (norm X (vsub newParams (mParams m)))] |}.
Proof.
  unfold body. destruct (ddf X (st_obj s) (mParams (st_obj s))) as [H outH].
  destruct (df X (st_obj s) (mParams (st_obj s))) as [J outJ]. reflexivity.
Qed.

Lemma same_config_refl (m : minimizer R) : same_config m m.
Proof. repeat split. Qed.

Lemma same_config_trans (m1 m2 m3 : minimizer R) :
  same_config m1 m2 -> same_config m2 m3 -> same_config m1 m3.
Proof. unfold same_config. intuition congruence. Qed.

Lemma body_frame (s : loop_state) : same_config (st_obj s) (st_obj (body X s)).
Proof. rewrite body_eq. repeat split. Qed.

Lemma body_iter (s : loop_state) : st_iter (body X s) = (st_iter s + 1)%Z.
Proof. rewrite body_eq. reflexivity. Qed.

Lemma iter_frame (k : nat) (s : loop_state) :
  same_config (st_obj s) (st_obj (Nat.iter k (body X) s)).
Proof.
  induction k as [|k IH]; cbn [Nat.iter nat_rect].
  - apply same_config_refl.
  - eapply same_config_trans; [exact IH|apply body_frame].
Qed.

Lemma iter_iter (k : nat) (s : loop_state) :
  st_iter (Nat.iter k (body X) s) = (st_iter s + Z.of_nat k)%Z.
Proof.
  induction k as [|k IH].
  - cbn. lia.
  - rewrite Nat.iter_succ, body_iter, IH. lia.
Qed.

Lemma run_succ (m : minimizer R) (g : SQ_params X) (k : nat) :
  run X m g (S k) = body X (run X m g k).
Proof. reflexivity. Qed.

Lemma run_frame (m : minimizer R) (g : SQ_params X) (k : nat) :
  same_config m (st_obj (run X m g k)).
Proof.
  unfold run. eapply same_config_trans; [|apply iter_frame]. repeat split.
Qed.

Lemma run_iter (m : minimizer R) (g : SQ_params X) (k : nat) :
  st_iter (run X m g k) = Z.of_nat k.
Proof. unfold run. rewrite iter_iter. reflexivity. Qed.

(** With enough fuel the loop stops, at the first pass after which its
    condition is false. *)
Lemma do_while_run (fuel : nat) (s : loop_state) :
  1 <= fuel ->
  (mMaxIter (st_obj s) - st_iter s <= Z.of_nat fuel)%Z ->
  exists k,
    1 <= k <= fuel /\
    do_while X fuel s = Some (Nat.iter k (body X) s) /\
    continue (Nat.iter k (body X) s) = false /\
    forall j, 1 <= j < k -> continue (Nat.iter j (body X) s) = true.
Proof.
  revert s; induction fuel as [|fuel IH]; intros s Hf Hm; [lia|].
  cbn [do_while]. destruct (continue (body X s)) eqn:Ec.
  - assert (Hlt : (st_iter (body X s) <? mMaxIter (st_obj (body X s)))%Z = true).
    { unfold continue in Ec. now apply andb_true_iff in Ec. }
    apply Z.ltb_lt in Hlt. rewrite body_iter in Hlt.
    destruct (body_frame s) as (_ & _ & Hmax & _). rewrite Hmax in Hlt.
    destruct (IH (body X s)) as (k & Hk & Hd & Hc & Hj).
    + lia.
    + rewrite Hmax, body_iter. lia.
    + exists (S k). rewrite Nat.iter_succ_r. split; [lia|]. split; [exact Hd|].
      split; [exact Hc|]. intros [|[|j]] Hjk; try lia.
      * exact Ec.
      * rewrite Nat.iter_succ_r. apply Hj. lia.
  - exists 1. cbn [Nat.iter nat_rect]. split; [lia|]. split; [reflexivity|].
    split; [exact Ec|]. intros j Hj. lia.
Qed.

(** [minimize] always returns: the loop ends after [k] passes, for some
    [k] between 1 and max(1, mMaxIter). *)
Lemma minimize_loop_run (m : minimizer R) (g : SQ_params X) :
  exists k,
    1 <= k /\ (Z.of_nat k <= Z.max 1 (mMaxIter m))%Z /\
    minimize_loop X m g = Some (run X m g k) /\
    continue (run X m g k) = false /\
    forall j, 1 <= j < k -> continue (run X m g j) = true.
Proof.
  unfold minimize_loop, run.
  destruct (do_while_run (fuel := fuel_of m) (loop_init X m g)) as (k & Hk & Hd & Hc & Hj).
  - unfold fuel_of. lia.
  - unfold fuel_of. cbn. lia.
  - exists k. unfold fuel_of in Hk. repeat split; auto; lia.
Qed.

Lemma continue_run (m : minimizer R) (g : SQ_params X) (k : nat) :
  continue (run X m g k)
  = (Z.of_nat k <? mMaxIter m)%Z && rgt (error_at X m g k) (mMinThresh m).
Proof.
  unfold continue, error_at. rewrite run_iter.
  destruct (run_frame m g k) as (_ & _ & -> & -> & _). reflexivity.
Qed.

Lemma finish_spec (s : loop_state) (out : SQ_params X) :
  fit_ok (finish X s out) = negb (mMaxIter (st_obj s) <=? st_iter s)%Z /\
  fit_par_out (finish X s out) = vec2Param X (mParams (st_obj s)) out /\
  fit_obj (finish X s out) = st_obj s.
Proof.
  unfold finish. destruct (mMaxIter (st_obj s) <=? st_iter s)%Z; repeat split.
Qed.

Lemma minimize_run (m : minimizer R) (g out : SQ_params X) :
  exists k,
    1 <= k /\ (Z.of_nat k <= Z.max 1 (mMaxIter m))%Z /\
    minimize_loop X m g = Some (run X m g k) /\
    minimize X m g out = Some (finish X (run X m g k) out) /\
    continue (run X m g k) = false /\
    forall j, 1 <= j < k -> continue (run X m g j) = true.
Proof.
  destruct (minimize_loop_run m g) as (k & Hk & Hb & Hl & Hc & Hj).
  exists k. unfold minimize. rewrite Hl. repeat split; auto.
Qed.

(** *** The damping matrix *)

Lemma Identity_is_matrix (r c : nat) : is_matrix r c (Identity (R := R) r c).
Proof.
  unfold is_matrix, Identity. rewrite length_map, length_seq. split; [reflexivity|].
  apply Forall_forall. intros row Hin. apply in_map_iff in Hin.
  destruct Hin as (i & <- & _). now rewrite length_map, length_seq.
Qed.

Lemma Identity_mget (r c i j : nat) :
  i < r -> j < c ->
  mget (Identity (R := R) r c) i j = if Nat.eqb i j then rone else rzero.
Proof.
  intros Hi Hj. unfold mget, Identity.
  rewrite (map_seq_nth _ _ Hi). now rewrite (map_seq_nth _ _ Hj).
Qed.

Lemma damping_fold (N : nat) (H : MatrixXd R) (k s : nat) (dH : MatrixXd R) :
  is_matrix N N dH ->
  is_matrix N N (fold_left (fun d i => mset d i i (mget H i i)) (seq s k) dH) /\
  forall i j, i < N -> j < N ->
    mget (fold_left (fun d i => mset d i i (mget H i i)) (seq s k) dH) i j
    = if Nat.eqb i j && (s <=? i) && (i <? s + k) then mget H i i else mget dH i j.
Proof.
  revert s dH; induction k as [|k IH]; intros s dH HM; cbn [seq fold_left].
  - split; [exact HM|]. intros i j _ _.
    destruct (Nat.leb_spec s i), (Nat.ltb_spec i (s + 0)); try lia;
      now rewrite ?andb_false_r.
  - destruct (IH (S s) (mset dH s s (mget H s s)) (mset_is_matrix s s _ HM)) as [HM' G].
    split; [exact HM'|]. intros i j Hi Hj. rewrite G by assumption.
    destruct (Nat.eqb_spec i j) as [<-|Hij]; cbn [andb].
    + destruct (Nat.eqb_spec i s) as [->|His].
      * replace (S s <=? s) with false by (symmetry; apply Nat.leb_gt; lia).
        replace (s <=? s) with true by (symmetry; apply Nat.leb_le; lia).
        replace (s <? s + S k) with true by (symmetry; apply Nat.ltb_lt; lia).
        cbn [andb]. apply mget_mset_same with (r := N) (c := N); assumption.
      * replace (i <? S s + k) with (i <? s + S k) by (f_equal; lia).
        destruct (Nat.leb_spec (S s) i), (Nat.leb_spec s i); cbn [andb]; try lia; auto;
          destruct (i <? s + S k); auto; apply mget_mset_other; left; congruence.
    + destruct (Nat.eq_dec s i) as [->|Hsi].
      * apply mget_mset_other. right. exact Hij.
      * apply mget_mset_other. left. exact Hsi.
Qed.

Lemma damping_spec (N : nat) (H dH : MatrixXd R) :
  is_matrix N N dH ->
  is_matrix N N (damping N H dH) /\
  forall i j, i < N -> j < N ->
    mget (damping N H dH) i j = if Nat.eqb i j then mget H i i else mget dH i j.
Proof.
  intros HM. destruct (damping_fold H N 0 HM) as [HM' G].
  split; [exact HM'|]. intros i j Hi Hj. unfold damping. rewrite G by assumption.
  replace (i <? 0 + N) with true by (symmetry; apply Nat.ltb_lt; lia).
  cbn [Nat.leb]. now rewrite !andb_true_r.
Qed.

(** [dH] stays a square matrix whose off-diagonal entries are those of
    the identity it was initialised with. *)
Lemma run_dH (m : minimizer R) (g : SQ_params X) (k : nat) :
  is_matrix (mNumParams m) (mNumParams m) (st_dH (run X m g k)) /\
  forall i j, i < mNumParams m -> j < mNumParams m -> i <> j ->
    mget (st_dH (run X m g k)) i j = rzero.
Proof.
  induction k as [|k [HM Hz]].
  - unfold run, loop_init. cbn [Nat.iter nat_rect st_dH].
    split; [apply Identity_is_matrix|]. intros i j Hi Hj Hij.
    rewrite Identity_mget by assumption. now destruct (Nat.eqb_spec i j).
  - rewrite run_succ, body_eq. cbn [st_dH].
    destruct (run_frame m g k) as (_ & _ & _ & _ & HN). rewrite HN.
    destruct (damping_spec (fst (ddf X (st_obj (run X m g k))
                                      (mParams (st_obj (run X m g k))))) HM) as [HM' G].
    split; [exact HM'|]. intros i j Hi Hj Hij. rewrite G by assumption.
    destruct (Nat.eqb_spec i j); [contradiction|]. now apply Hz.
Qed.

End Solver.

(** ** Exact arithmetic: the inverse solves the linear system *)

Section LinearSystem.

Context {R : Type} {SR : Scalar R}.
Hypothesis SRth : semi_ring_theory rzero rone radd rmul (@eq R).

Add Ring scalar_ring : SRth.

Lemma dot_cons (x y : R) (u v : VectorXd R) :
  dot (x :: u) (y :: v) = radd (rmul x y) (dot u v).
Proof. reflexivity. Qed.

Lemma dot_nil_r (u : VectorXd R) : dot u [] = rzero.
Proof. now destruct u. Qed.

Lemma dot_VZero (n : nat) (v : VectorXd R) : dot (VZero n) v = rzero.
Proof.
  revert v; induction n as [|n IH]; intros [|y v]; try reflexivity.
  change (VZero (S n)) with (rzero :: VZero n).
  rewrite dot_cons, IH. ring.
Qed.

Lemma dot_vadd (u w v : VectorXd R) :
  length u = length w -> dot (vadd u w) v = radd (dot u v) (dot w v).
Proof.
  revert w v; induction u as [|a u IH]; intros [|b w] v Hl; try discriminate.
  - cbn. ring.
  - destruct v as [|y v].
    + rewrite !dot_nil_r. ring.
    + change (vadd (a :: u) (b :: w)) with (radd a b :: vadd u w).
      rewrite !dot_cons, IH by (simpl in Hl; lia). ring.
Qed.

Lemma dot_vscale (c : R) (u v : VectorXd R) :
  dot (vscale c u) v = rmul c (dot u v).
Proof.
  revert v; induction u as [|a u IH]; intros [|y v].
  - cbn. ring.
  - cbn. ring.
  - rewrite !dot_nil_r. ring.
  - change (vscale c (a :: u)) with (rmul c a :: vscale c u).
    rewrite !dot_cons, IH. ring.
Qed.

Lemma vmmul_cons (c : nat) (x : R) (a b : VectorXd R) (B : MatrixXd R) :
  vmmul c (x :: a) (b :: B) = vadd (vscale x b) (vmmul c a B).
Proof. reflexivity. Qed.

Lemma vmmul_length (c : nat) (a : VectorXd R) (B : MatrixXd R) :
  Forall (fun row => length row = c) B -> length (vmmul c a B) = c.
Proof.
  revert B; induction a as [|x a IH]; intros [|b B] HB; try apply VZero_length.
  inversion HB as [|? ? Hb HB']; subst.
  rewrite vmmul_cons. unfold vadd. rewrite map2_length, IH by exact HB'.
  unfold vscale. rewrite length_map. lia.
Qed.

Lemma dot_vmmul (c : nat) (a : VectorXd R) (B : MatrixXd R) (v : VectorXd R) :
  Forall (fun row => length row = c) B ->
  dot (vmmul c a B) v = dot a (mvmul B v).
Proof.
  revert B; induction a as [|x a IH]; intros [|b B] HB.
  - apply dot_VZero.
  - apply dot_VZero.
  - cbn [mvmul map]. rewrite dot_nil_r. apply dot_VZero.
  - inversion HB as [|? ? Hb HB']; subst.
    rewrite vmmul_cons. cbn [mvmul map]. fold (mvmul B v).
    rewrite dot_vadd.
    + rewrite dot_vscale, dot_cons, IH by exact HB'. reflexivity.
    + unfold vscale. rewrite length_map. symmetry. now apply vmmul_length.
Qed.

Lemma mvmul_mmul (c : nat) (A B : MatrixXd R) (v : VectorXd R) :
  Forall (fun row => length row = c) B ->
  mvmul (mmul c A B) v = mvmul A (mvmul B v).
Proof.
  intros HB. unfold mmul, mvmul at 1 2. rewrite map_map.
  apply map_ext. intros a. now apply dot_vmmul.
Qed.

Lemma dot_unit_row (i n s : nat) (v : VectorXd R) :
  length v = n ->
  dot (map (fun j => if Nat.eqb i j then rone else rzero) (seq s n)) v
  = if s <=? i then nth (i - s) v rzero else rzero.
Proof.
  revert s v; induction n as [|n IH]; intros s [|y v] Hl; try discriminate.
  - cbn. destruct (s <=? i); [now destruct (i - s)|reflexivity].
  - cbn [seq map]. rewrite dot_cons, IH by (simpl in Hl; lia).
    destruct (Nat.eqb_spec i s) as [->|His].
    + replace (S s <=? s) with false by (symmetry; apply Nat.leb_gt; lia).
      replace (s <=? s) with true by (symmetry; apply Nat.leb_le; lia).
      rewrite Nat.sub_diag. cbn [nth]. ring.
    + destruct (Nat.leb_spec (S s) i), (Nat.leb_spec s i); try lia.
      * replace (i - s) with (S (i - S s)) by lia. cbn [nth]. ring.
      * ring.
Qed.

Lemma mvmul_Identity (n : nat) (v : VectorXd R) :
  length v = n -> mvmul (Identity n n) v = v.
Proof.
  intros Hl. unfold mvmul, Identity. rewrite map_map.
  transitivity (map (fun i => nth i v rzero) (seq 0 n)).
  - apply map_ext. intros i.
    rewrite dot_unit_row by exact Hl. cbn [Nat.leb]. now rewrite Nat.sub_0_r.
  - symmetry. rewrite <- Hl. apply eq_map_seq with (d := rzero). reflexivity.
Qed.

(** A right inverse of [M], applied to [J], solves [M x = J]. *)
Lemma right_inverse_solves (n : nat) (M Minv : MatrixXd R) (J : VectorXd R) :
  is_matrix n n Minv -> length J = n ->
  mmul n M Minv = Identity n n ->
  mvmul M (mvmul Minv J) = J.
Proof.
  intros [_ Hc] HJ HI.
  rewrite <- (mvmul_mmul M J Hc), HI. now apply mvmul_Identity.
Qed.

End LinearSystem.

(** ** The claims of the specification *)

Section Claims.

Context {R : Type} {SR : Scalar R} (X : Extern R).

Lemma guarded_sum_app (f : PointXYZ R -> R) (pre post : list (PointXYZ R)) :
  guarded_sum f (pre ++ post)
  = fold_left (fun acc it => skip_nan (f it) acc) post (guarded_sum f pre).
Proof. unfold guarded_sum. now rewrite fold_left_app. Qed.

(** A point whose element is not a number leaves the running sum as it is. *)
Lemma guarded_sum_skip (f : PointXYZ R -> R) (pre post : list (PointXYZ R))
  (bad : PointXYZ R) :
  rneq (f bad) (f bad) = true ->
  guarded_sum f (pre ++ bad :: post) = guarded_sum f (pre ++ post).
Proof.
  intros Hnan. rewrite !guarded_sum_app. cbn [fold_left].
  unfold skip_nan at 2. now rewrite Hnan.
Qed.

(** A point whose element is a number adds it to the running sum. *)
Lemma guarded_sum_keep (f : PointXYZ R -> R) (pre post : list (PointXYZ R))
  (it : PointXYZ R) :
  rneq (f it) (f it) = false ->
  guarded_sum f (pre ++ it :: post)
  = fold_left (fun acc it' => skip_nan (f it') acc) post
              (radd (guarded_sum f pre) (f it)).
Proof.
  intros Hnum. rewrite guarded_sum_app. cbn [fold_left].
  unfold skip_nan at 2. now rewrite Hnum.
Qed.

Lemma guarded_sum_plain (f : PointXYZ R -> R) (pts : list (PointXYZ R)) :
  (forall it, In it pts -> rneq (f it) (f it) = false) ->
  guarded_sum f pts = plain_sum f pts.
Proof.
  unfold guarded_sum, plain_sum. generalize (@rzero R SR).
  induction pts as [|it pts IH]; intros acc Hok; cbn [fold_left]; [reflexivity|].
  rewrite (Hok it) by (now left). apply IH. intros it' Hin. apply Hok. now right.
Qed.

Lemma is_matrixb_ok (r c : nat) (M : MatrixXd R) :
  is_matrixb r c M = true -> is_matrix r c M.
Proof.
  unfold is_matrixb, is_matrix. intros H. apply andb_true_iff in H.
  destruct H as [Hr Hc]. apply Nat.eqb_eq in Hr. split; [exact Hr|].
  apply Forall_forall. intros row Hin.
  apply Nat.eqb_eq. revert row Hin. now apply forallb_forall.
Qed.

(** C6: for an object whose [mNumParams] is the 11 set by the constructor,
    every parameter vector and every sample set (the empty one included),
    [df] returns a vector of 11 coefficients and [ddf] a matrix of 11 rows
    of 11 coefficients. *)
Theorem C6_dimensions (m : minimizer R) (_params : VectorXd R) :
  mNumParams m = 11 ->
  length (fst (df X m _params)) = 11 /\ is_matrix 11 11 (fst (ddf X m _params)).
Proof.
  intros HN. split.
  - rewrite df_length. exact HN.
  - rewrite <- HN. apply ddf_is_matrix.
Qed.

(** C3, as amended: each of the 11 elements of the gradient is the sum,
    over the sample points in order, of those values of the corresponding
    element of the first-derivative formula that are numbers (a value that
    differs from itself is left out), and likewise each of the 121 entries
    of the Hessian, entry (i,j) reading element 11 i + j of the
    second-derivative formula; for an empty sample set the gradient is the
    zero vector and the Hessian the zero matrix; and when no value is
    not-a-number these are the plain sums over all points. *)
Theorem C3_sums_of_number_contributions (m : minimizer R) (_params : VectorXd R) :
  mNumParams m = 11 ->
  fst (df X m _params)
  = map (fun n => guarded_sum (jac_at X _params n) (mSamples m)) (seq 0 11)
  /\ fst (ddf X m _params)
     = map (fun i => map (fun j => guarded_sum (hes_at X _params (i * 11 + j)) (mSamples m))
                         (seq 0 11))
           (seq 0 11)
  /\ (mSamples m = [] ->
      fst (df X m _params) = VZero 11 /\ fst (ddf X m _params) = MZero 11 11)
  /\ ((forall it n, In it (mSamples m) -> n < 11 ->
         rneq (jac_at X _params n it) (jac_at X _params n it) = false) ->
      (forall it ind, In it (mSamples m) -> ind < 121 ->
         rneq (hes_at X _params ind it) (hes_at X _params ind it) = false) ->
      spec_sum_over_all_points X m _params).
Proof.
  intros HN.
  destruct (df_gradient X m _params) as [Hd _].
  destruct (ddf_hessian X m _params) as [Hh _].
  rewrite HN in Hd, Hh.
  split; [exact Hd|]. split; [exact Hh|]. split.
  - intros He. rewrite Hd, Hh, He. split; reflexivity.
  - intros Hj Hh'. unfold spec_sum_over_all_points. rewrite Hd, Hh. split.
    + apply map_ext_in. intros n Hn. apply in_seq in Hn. apply guarded_sum_plain.
      intros it Hin. apply Hj; [exact Hin|lia].
    + apply map_ext_in. intros i Hi. apply map_ext_in. intros j Hjn.
      apply in_seq in Hi, Hjn. apply guarded_sum_plain.
      intros it Hin. apply Hh'; [exact Hin|lia].
Qed.

(** C4, as amended: in [df] and in [ddf] an element of a point's
    contribution that is not a number is left out of the sum and reported
    on the output, and the evaluation goes on.  Injecting a point leaves
    every element of the gradient (entry of the Hessian) at which that
    point's contribution is not a number as it is without the point; the
    whole gradient (Hessian) is the same as without the point when all
    the point's elements are not numbers.  An element of the point that
    is a number is still added: that element of the gradient (entry of
    the Hessian) is the sum over the points before it, plus the point's
    element, plus in turn the number elements of the points after it. *)
Theorem C4_nan_elements_are_skipped (m : minimizer R) (_params : VectorXd R)
  (pre : list (PointXYZ R)) (bad : PointXYZ R) (post : list (PointXYZ R)) :
  mNumParams m = 11 ->
  let with_bad := set_mSamples m (pre ++ bad :: post) in
  let without := set_mSamples m (pre ++ post) in
  (forall n, n < 11 ->
     rneq (jac_at X _params n bad) (jac_at X _params n bad) = true ->
     vget (fst (df X with_bad _params)) n = vget (fst (df X without _params)) n /\
     In (JacobianNaN n) (snd (df X with_bad _params)))
  /\ (forall i j, i < 11 -> j < 11 ->
        rneq (hes_at X _params (i * 11 + j) bad) (hes_at X _params (i * 11 + j) bad) = true ->
        mget (fst (ddf X with_bad _params)) i j = mget (fst (ddf X without _params)) i j /\
        In (HessianNaN i j) (snd (ddf X with_bad _params)))
  /\ ((forall n, n < 11 ->
         rneq (jac_at X _params n bad) (jac_at X _params n bad) = true) ->
      fst (df X with_bad _params) = fst (df X without _params))
  /\ ((forall i j, i < 11 -> j < 11 ->
         rneq (hes_at X _params (i * 11 + j) bad) (hes_at X _params (i * 11 + j) bad) = true) ->
      fst (ddf X with_bad _params) = fst (ddf X without _params))
  /\ (forall n, n < 11 ->
        rneq (jac_at X _params n bad) (jac_at X _params n bad) = false ->
        vget (fst (df X with_bad _params)) n
        = fold_left (fun acc it => skip_nan (jac_at X _params n it) acc) post
            (radd (vget (fst (df X (set_mSamples m pre) _params)) n)
                  (jac_at X _params n bad)))
  /\ (forall i j, i < 11 -> j < 11 ->
        rneq (hes_at X _params (i * 11 + j) bad) (hes_at X _params (i * 11 + j) bad) = false ->
        mget (fst (ddf X with_bad _params)) i j
        = fold_left (fun acc it => skip_nan (hes_at X _params (i * 11 + j) it) acc) post
            (radd (mget (fst (ddf X (set_mSamples m pre) _params)) i j)
                  (hes_at X _params (i * 11 + j) bad))).
Proof.
  intros HN with_bad without.
  assert (HNw : mNumParams with_bad = 11) by exact HN.
  assert (HNo : mNumParams without = 11) by exact HN.
  assert (HNp : mNumParams (set_mSamples m pre) = 11) by exact HN.
  destruct (df_gradient X with_bad _params) as [Hdw Hlw].
  destruct (df_gradient X without _params) as [Hdo _].
  destruct (df_gradient X (set_mSamples m pre) _params) as [Hdp _].
  destruct (ddf_hessian X with_bad _params) as [Hhw Hmw].
  destruct (ddf_hessian X without _params) as [Hho _].
  destruct (ddf_hessian X (set_mSamples m pre) _params) as [Hhp _].
  rewrite HNw in Hdw, Hlw, Hhw, Hmw. rewrite HNo in Hdo, Hho. rewrite HNp in Hdp, Hhp.
  cbn [mSamples with_bad without set_mSamples] in Hdw, Hlw, Hhw, Hmw, Hdo, Hho, Hdp, Hhp.
  split; [|split; [|split; [|split; [|split]]]].
  - intros n Hn Hnan. split.
    + unfold vget. rewrite Hdw, Hdo. rewrite !(map_seq_nth _ _ Hn).
      now apply guarded_sum_skip.
    + rewrite Hlw. apply in_flat_map. exists bad. split.
      * apply in_or_app. right. now left.
      * unfold jac_nans. apply in_map. apply filter_In. split; [|exact Hnan].
        apply in_seq. lia.
  - intros i j Hi Hj Hnan. split.
    + unfold mget. rewrite Hhw, Hho. rewrite !(map_seq_nth _ _ Hi).
      rewrite !(map_seq_nth _ _ Hj). now apply guarded_sum_skip.
    + rewrite Hmw. apply in_flat_map. exists bad. split.
      * apply in_or_app. right. now left.
      * unfold hes_nans. apply in_flat_map. exists i. split; [apply in_seq; lia|].
        apply in_map. apply filter_In. split; [apply in_seq; lia|exact Hnan].
  - intros Hall. rewrite Hdw, Hdo. apply map_ext_in. intros n Hn.
    apply in_seq in Hn. apply guarded_sum_skip. apply Hall. lia.
  - intros Hall. rewrite Hhw, Hho. apply map_ext_in. intros i Hi.
    apply map_ext_in. intros j Hj. apply in_seq in Hi, Hj.
    apply guarded_sum_skip. apply Hall; lia.
  - intros n Hn Hnum. unfold vget. rewrite Hdw, Hdp.
    rewrite !(map_seq_nth _ _ Hn). now apply guarded_sum_keep.
  - intros i j Hi Hj Hnum. unfold mget. rewrite Hhw, Hhp.
    rewrite !(map_seq_nth _ _ Hi). rewrite !(map_seq_nth _ _ Hj).
    now apply guarded_sum_keep.
Qed.

Lemma df_depends (m1 m2 : minimizer R) (_params : VectorXd R) :
  mSamples m1 = mSamples m2 -> mNumParams m1 = mNumParams m2 ->
  df X m1 _params = df X m2 _params.
Proof. intros Hs Hn. unfold df. now rewrite Hs, Hn. Qed.

Lemma ddf_depends (m1 m2 : minimizer R) (_params : VectorXd R) :
  mSamples m1 = mSamples m2 -> mNumParams m1 = mNumParams m2 ->
  ddf X m1 _params = ddf X m2 _params.
Proof. intros Hs Hn. unfold ddf. now rewrite Hs, Hn. Qed.

Lemma minimize_frame (m : minimizer R) (g out : SQ_params X) :
  exists r, minimize X m g out = Some r /\ same_config m (fit_obj r).
Proof.
  destruct (minimize_run X m g out) as (k & _ & _ & _ & Hm & _).
  eexists. split; [exact Hm|].
  destruct (finish_spec X (run X m g k) out) as (_ & _ & ->). apply run_frame.
Qed.

(** C7: the result of [df], and of [ddf], gradient or Hessian and output
    alike, is determined by the parameter vector passed, the sample points
    and [mNumParams]: two objects that agree on these give identical
    results whatever their other members hold, and so does one object
    before and after a call of [minimize], the only function that writes a
    member ([mParams]). *)
Theorem C7_evaluation_reads_no_hidden_state
  (m1 m2 : minimizer R) (_params : VectorXd R) :
  mSamples m1 = mSamples m2 -> mNumParams m1 = mNumParams m2 ->
  df X m1 _params = df X m2 _params /\
  ddf X m1 _params = ddf X m2 _params /\
  forall g out, exists r,
    minimize X m1 g out = Some r /\
    df X (fit_obj r) _params = df X m1 _params /\
    ddf X (fit_obj r) _params = ddf X m1 _params.
Proof.
  intros Hs Hn. split; [now apply df_depends|]. split; [now apply ddf_depends|].
  intros g out. destruct (minimize_frame m1 g out) as (r & Hm & Hsam & _ & _ & _ & Hnum).
  exists r. split; [exact Hm|].
  split; [apply df_depends|apply ddf_depends]; congruence.
Qed.

(** C8: a call of [minimize] returns and leaves the sample points of the
    object as they were, and so does any sequence of fits on one object.
    ([df] and [ddf] assign no member at all: they are functions of the
    object.) *)
Theorem C8_samples_are_never_written (m : minimizer R) :
  (forall g out, exists r,
     minimize X m g out = Some r /\ mSamples (fit_obj r) = mSamples m) /\
  (forall guesses, exists m',
     refit X m guesses = Some m' /\ mSamples m' = mSamples m).
Proof.
  split.
  - intros g out. destruct (minimize_frame m g out) as (r & Hm & Hsam & _).
    now exists r.
  - intros guesses. revert m. induction guesses as [|g rest IH]; intros m; cbn [refit].
    + now exists m.
    + destruct (minimize_frame m g g) as (r & Hm & Hsam & _). rewrite Hm.
      destruct (IH (fit_obj r)) as (m' & Hr & Hs'). exists m'. split; [exact Hr|].
      congruence.
Qed.

(** C5: [minimize] returns after some number k >= 1 of passes of the
    loop; whether the flag it returns is true or false, [_par_out] is
    [vec2Param] of the parameter vector the k-th pass computed, which is
    also what [mParams] holds. *)
Theorem C5_output_is_latest_parameters (m : minimizer R) (g out : SQ_params X) :
  exists k r,
    1 <= k /\
    minimize_loop X m g = Some (run X m g k) /\
    minimize X m g out = Some r /\
    fit_ok r = negb (mMaxIter m <=? Z.of_nat k)%Z /\
    fit_par_out r = vec2Param X (mParams (st_obj (run X m g k))) out /\
    mParams (fit_obj r) = mParams (st_obj (run X m g k)).
Proof.
  destruct (minimize_run X m g out) as (k & Hk & _ & Hl & Hm & _).
  exists k, (finish X (run X m g k) out).
  destruct (finish_spec X (run X m g k) out) as (Hok & Hout & Hobj).
  rewrite run_iter in Hok.
  destruct (run_frame X m g k) as (_ & _ & Hmax & _). rewrite Hmax in Hok.
  rewrite Hobj. repeat split; assumption.
Qed.


(** The flag is read off the count alone. *)
Lemma finish_flag (m : minimizer R) (g out : SQ_params X) (k : nat) :
  fit_ok (finish X (run X m g k) out) = negb (mMaxIter m <=? Z.of_nat k)%Z.
Proof.
  destruct (finish_spec X (run X m g k) out) as (-> & _ & _).
  rewrite run_iter. destruct (run_frame X m g k) as (_ & _ & -> & _). reflexivity.
Qed.

(** C10: the flag returned by [minimize] is false exactly when the count
    [iter] has reached [mMaxIter] at the exit of the loop; the step size
    is not consulted.  So when the cap is N >= 1 and the step size stayed
    above the threshold on the passes before the N-th, the loop exits
    after N passes and [minimize] returns false whatever the step size of
    pass N is, at or below the threshold included. *)
Theorem C10_flag_from_count_alone (m : minimizer R) (g out : SQ_params X) :
  exists r s,
    minimize X m g out = Some r /\
    minimize_loop X m g = Some s /\
    (fit_ok r = false <-> (mMaxIter m <= st_iter s)%Z) /\
    forall N, 1 <= N -> mMaxIter m = Z.of_nat N ->
      (forall k, 1 <= k < N -> rgt (error_at X m g k) (mMinThresh m) = true) ->
      s = run X m g N /\ st_iter s = Z.of_nat N /\ fit_ok r = false.
Proof.
  destruct (minimize_run X m g out) as (k & Hk & Hb & Hl & Hm & Hc & Hj).
  exists (finish X (run X m g k) out), (run X m g k).
  split; [exact Hm|]. split; [exact Hl|]. rewrite finish_flag, run_iter. split.
  - rewrite negb_false_iff. apply Z.leb_le.
  - intros N HN Hmax Habove.
    assert (HkN : k = N).
    { destruct (Nat.lt_ge_cases k N) as [Hlt|Hge]; [|lia].
      rewrite continue_run, Habove, andb_true_r in Hc by lia.
      apply Z.ltb_ge in Hc. lia. }
    subst k. repeat split. rewrite negb_false_iff. apply Z.leb_le. lia.
Qed.

(** C2, as amended: [minimize] returns true if and only if, on some pass
    k >= 1 with k < mMaxIter, the test [error > mMinThresh] is false
    (the step size is at most the threshold, or it is not a number); so
    it returns false when the test holds on every pass before the cap.
    With mMaxIter = 1 it returns false after exactly one pass, with the
    once-updated parameters in [_par_out].  Where [<=] is the negation of
    [>] on the step sizes, this is the sentence of the specification. *)
Theorem C2_success_iff_test_fails_before_cap (m : minimizer R) (g out : SQ_params X) :
  exists r s,
    minimize X m g out = Some r /\
    minimize_loop X m g = Some s /\
    (fit_ok r = true <->
     exists k, 1 <= k /\ (Z.of_nat k <= st_iter s)%Z /\ (Z.of_nat k < mMaxIter m)%Z /\
               rgt (error_at X m g k) (mMinThresh m) = false) /\
    ((forall k, 1 <= k -> (Z.of_nat k < mMaxIter m)%Z ->
        rgt (error_at X m g k) (mMinThresh m) = true) ->
     fit_ok r = false /\ st_iter s = Z.max 1 (mMaxIter m)) /\
    (mMaxIter m = 1%Z ->
     fit_ok r = false /\ s = run X m g 1 /\ st_iter s = 1%Z /\
     fit_par_out r = vec2Param X (mParams (st_obj (body X (loop_init X m g)))) out) /\
    ((forall k, rle (error_at X m g k) (mMinThresh m)
                = negb (rgt (error_at X m g k) (mMinThresh m))) ->
     spec_success_iff_small_step X m g out).
Proof.
  destruct (minimize_run X m g out) as (k & Hk & Hb & Hl & Hm & Hc & Hj).
  assert (Hiff : forall (below : nat -> bool),
             (forall j, below j = negb (rgt (error_at X m g j) (mMinThresh m))) ->
             negb (mMaxIter m <=? Z.of_nat k)%Z = true <->
             exists j, 1 <= j /\ (Z.of_nat j <= Z.of_nat k)%Z /\
                       (Z.of_nat j < mMaxIter m)%Z /\ below j = true).
  { intros below Hbelow. rewrite negb_true_iff, Z.leb_gt. split.
    - intros Hlt. exists k. rewrite Hbelow.
      rewrite continue_run in Hc.
      replace (Z.of_nat k <? mMaxIter m)%Z with true in Hc
        by (symmetry; apply Z.ltb_lt; exact Hlt).
      cbn [andb] in Hc. rewrite Hc. repeat split; auto; lia.
    - intros (j & Hj1 & Hj2 & Hj3 & Hj4).
      destruct (Nat.eq_dec j k) as [->|Hne]; [exact Hj3|].
      assert (Hcj : continue (run X m g j) = true) by (apply Hj; lia).
      rewrite continue_run in Hcj. apply andb_true_iff in Hcj.
      destruct Hcj as [_ Hcj]. rewrite Hbelow, Hcj in Hj4. discriminate. }
  exists (finish X (run X m g k) out), (run X m g k).
  split; [exact Hm|]. split; [exact Hl|]. rewrite finish_flag, run_iter.
  split; [|split; [|split]].
  - rewrite (Hiff (fun j => negb (rgt (error_at X m g j) (mMinThresh m))))
      by reflexivity.
    split; intros (j & H1 & H2 & H3 & H4); exists j; repeat split; auto;
      [now apply negb_true_iff|now apply negb_true_iff in H4].
  - intros Habove.
    assert (Hge : (mMaxIter m <= Z.of_nat k)%Z).
    { destruct (Z.lt_ge_cases (Z.of_nat k) (mMaxIter m)) as [Hlt|Hge]; [|exact Hge].
      rewrite continue_run, (Habove k Hk Hlt), andb_true_r in Hc.
      apply Z.ltb_ge in Hc. exact Hc. }
    split; [|lia]. rewrite negb_false_iff. now apply Z.leb_le.
  - intros Hone. rewrite Hone in *.
    assert (k = 1) by lia. subst k.
    destruct (finish_spec X (run X m g 1) out) as (_ & -> & _).
    repeat split.
  - intros Htotal. exists (finish X (run X m g k) out), (run X m g k).
    split; [exact Hm|]. split; [exact Hl|]. rewrite finish_flag, run_iter.
    apply (Hiff (fun j => rle (error_at X m g j) (mMinThresh m))). exact Htotal.
Qed.

(** C1, as amended: on every pass of the loop of [minimize] (pass k + 1,
    from the state after k passes), with H and J the Hessian and the
    gradient at the current parameters, the matrix [dH] has the diagonal
    of H and zeros elsewhere, the update Delta is the product of the
    matrix that [inverse()] returns for H + mLambda dH with J, the
    parameters become params - Delta, and [mLambda] is not changed.
    Delta is a solution of (H + mLambda dH) Delta = J only where the
    scalar operations obey the laws of exact arithmetic and [inverse()]
    returns a right inverse of H + mLambda dH; nothing is said of a
    singular matrix or of rounded arithmetic. *)
Theorem C1_damped_newton_pass (m : minimizer R) (g : SQ_params X) (k : nat) :
  mNumParams m = 11 ->
  let s := run X m g k in
  let s' := run X m g (S k) in
  let params := mParams (st_obj s) in
  let H := fst (ddf X (st_obj s) params) in
  let J := fst (df X (st_obj s) params) in
  let D := st_dH s' in
  let M := madd H (mscale (mLambda m) D) in
  let Delta := mvmul (inverse X M) J in
  st_H s' = H /\ st_J s' = J /\
  (forall i j, i < 11 -> j < 11 ->
     mget D i j = if Nat.eqb i j then mget H i i else rzero) /\
  mParams (st_obj s') = vsub params Delta /\
  mLambda (st_obj s') = mLambda m /\
  (semi_ring_theory rzero rone radd rmul (@eq R) ->
   is_matrix 11 11 (inverse X M) ->
   mmul 11 M (inverse X M) = Identity 11 11 ->
   mvmul M Delta = J).
Proof.
  intros HN s s' params H J D M Delta.
  destruct (run_frame X m g k) as (_ & Hlam & _ & _ & Hnum).
  fold s in Hlam, Hnum.
  assert (HD : D = damping 11 H (st_dH s)).
  { unfold D, s'. rewrite run_succ, body_eq. cbn [st_dH]. fold s.
    now rewrite Hnum, HN. }
  assert (Hpar : mParams (st_obj s') = vsub params Delta).
  { unfold Delta, M. rewrite HD, <- Hlam.
    unfold s'. rewrite run_succ, body_eq. cbn [st_obj mParams set_mParams]. fold s.
    now rewrite Hnum, HN. }
  destruct (run_dH X m g k) as [HM Hoff]. rewrite HN in HM, Hoff. fold s in HM, Hoff.
  destruct (damping_spec H HM) as [_ Hdamp].
  split; [|split; [|split; [|split; [|split]]]].
  - unfold s'. rewrite run_succ, body_eq. reflexivity.
  - unfold s'. rewrite run_succ, body_eq. reflexivity.
  - intros i j Hi Hj. rewrite HD, Hdamp by assumption.
    destruct (Nat.eqb_spec i j) as [_|Hij]; [reflexivity|]. now apply Hoff.
  - exact Hpar.
  - destruct (run_frame X m g (S k)) as (_ & Hlam' & _). exact Hlam'.
  - intros SRth Hinv Hright.
    apply (right_inverse_solves SRth (n := 11)); [exact Hinv| |exact Hright].
    unfold J. rewrite df_length. now rewrite Hnum.
Qed.

End Claims.

(** ** The claims on concrete objects *)

Lemma Qc_meqb_eq (A B : MatrixXd Qc) : Qc_meqb A B = true -> A = B.
Proof.
  unfold Qc_meqb. revert B; induction A as [|a A IH]; intros [|b B] H;
    try reflexivity; try discriminate.
  cbn [length combine forallb fst snd] in H.
  apply andb_true_iff in H. destruct H as [Hlen H].
  apply andb_true_iff in H. destruct H as [Hrow Hrest].
  apply andb_true_iff in Hrow. destruct Hrow as [Hl Hab].
  f_equal.
  - clear - Hl Hab. apply Nat.eqb_eq in Hl.
    revert b Hl Hab; induction a as [|x a IHa]; intros [|y b] Hl Hab;
      try reflexivity; try discriminate.
    cbn [combine forallb fst snd] in Hab. apply andb_true_iff in Hab.
    destruct Hab as [Hxy Hab]. apply Qc_eq_bool_correct in Hxy. subst y.
    f_equal. apply IHa; [now injection Hl|exact Hab].
  - apply IH. apply andb_true_iff. split; [|exact Hrest].
    apply Nat.eqb_eq in Hlen. apply Nat.eqb_eq. now injection Hlen.
Qed.

Lemma Qc_semi_ring : semi_ring_theory (R := Qc) rzero rone radd rmul (@eq Qc).
Proof. constructor; intros; cbn [rzero rone radd rmul Qc_scalar]; ring. Qed.

Lemma C6_dimensions_witness :
  length (fst (df X_bowl m_origin unit_x)) = 11 /\
  is_matrix 11 11 (fst (ddf X_bowl m_origin unit_x)).
Proof. apply (C6_dimensions X_bowl m_origin unit_x). reflexivity. Defined.

Lemma C3_sums_witness :
  fst (df X_ratio m_pole unit_x)
  = map (fun n => guarded_sum (jac_at X_ratio unit_x n) (mSamples m_pole)) (seq 0 11).
Proof. apply (C3_sums_of_number_contributions X_ratio m_pole unit_x). reflexivity. Defined.

(** On the doubles, with the point (0,0,0) at which element 0 of the
    formula is 0/0, element 0 of the gradient is 0 and the sum over all
    points is not a number. *)
Lemma C3_counterexample : ~ spec_sum_over_all_points X_ratio m_origin unit_x.
Proof.
  intros [H _].
  apply (f_equal (fun v => PrimFloat.is_nan (nth 0 v 0%float))) in H.
  vm_compute in H. discriminate.
Qed.

Lemma C4_nan_witness :
  vget (fst (df X_ratio (set_mSamples m_empty ([] ++ pole :: [])) unit_x)) 0
  = vget (fst (df X_ratio (set_mSamples m_empty ([] ++ [])) unit_x)) 0 /\
  In (JacobianNaN 0) (snd (df X_ratio (set_mSamples m_empty ([] ++ pole :: [])) unit_x)).
Proof.
  pose proof (C4_nan_elements_are_skipped X_ratio m_empty unit_x [] pole [] eq_refl)
    as H.
  cbv zeta in H. destruct H as [Hgrad _].
  apply (Hgrad 0).
  - lia.
  - vm_compute. reflexivity.
Defined.

(** The point (0,0,1) makes element 0 of the formula 0/0 and every other
    element 1: the gradient with the point has 1 at index 1, the gradient
    without it has 0. *)
Lemma C4_counterexample : ~ spec_nan_point_omitted X_ratio m_empty unit_x [] pole [].
Proof.
  intros H.
  assert (Hnan : exists n, n < 11 /\
            rneq (jac_at X_ratio unit_x n pole) (jac_at X_ratio unit_x n pole) = true).
  { exists 0. split; [lia|]. vm_compute. reflexivity. }
  specialize (H Hnan).
  apply (f_equal (fun v => PrimFloat.eqb (nth 1 v 0%float) 0%float)) in H.
  vm_compute in H. discriminate.
Qed.

Lemma C7_witness :
  df X_bowl m_origin unit_x = df X_bowl (with_cap 4) unit_x.
Proof.
  apply (C7_evaluation_reads_no_hidden_state X_bowl m_origin (with_cap 4) unit_x);
    reflexivity.
Defined.

(** With no sample point the Hessian and the gradient are zero, the
    inverse of the zero matrix has no finite entry, the step size of the
    first pass is not a number, the test [error > mMinThresh] is false and
    [minimize] returns true after one pass: success, though the step size
    never was at most the threshold. *)
Lemma C2_counterexample : ~ spec_success_iff_small_step X_bowl m_empty unit_x [].
Proof.
  intros (r & s & Hm & Hl & [Hok _]).
  vm_compute in Hm. injection Hm as <-.
  vm_compute in Hl. injection Hl as <-.
  destruct (Hok eq_refl) as (k & Hk1 & Hk2 & _ & Hle).
  cbn [st_iter] in Hk2. assert (k = 1) by lia. subst k.
  vm_compute in Hle. discriminate.
Qed.

Lemma C2_cap_one_witness :
  exists r, minimize X_bowl (with_cap 1) unit_x [] = Some r /\
            fit_ok r = false /\
            fit_par_out r
            = vec2Param X_bowl
                (mParams (st_obj (body X_bowl (loop_init X_bowl (with_cap 1) unit_x)))) [].
Proof.
  destruct (C2_success_iff_test_fails_before_cap X_bowl (with_cap 1) unit_x [])
    as (r & s & Hm & _ & _ & _ & Hone & _).
  exists r. split; [exact Hm|].
  destruct (Hone eq_refl) as (Hok & _ & _ & Hout). split; [exact Hok|exact Hout].
Defined.

(** On the bowl the step sizes are 0.909, 0.0826, 0.0075 and 0.00068:
    with a cap of 4 the threshold 0.005 is first met on the fourth pass,
    and [minimize] returns false. *)
Lemma C10_cap_four_witness :
  rle (error_at X_bowl (with_cap 4) unit_x 4) (mMinThresh (with_cap 4)) = true /\
  exists r, minimize X_bowl (with_cap 4) unit_x [] = Some r /\ fit_ok r = false.
Proof.
  split; [vm_compute; reflexivity|].
  destruct (C10_flag_from_count_alone X_bowl (with_cap 4) unit_x [])
    as (r & s & Hm & _ & _ & Hcap).
  exists r. split; [exact Hm|].
  apply (Hcap 4); [lia|reflexivity|].
  intros [|[|[|[|k]]]] Hk; try lia; vm_compute; reflexivity.
Defined.

(** On the doubles, with no sample point, H, J and H + 0.1 dH are zero;
    the matrix returned for the inverse has no finite entry, the update
    is not a number in every element, and so is its product with the zero
    matrix, which therefore is not the zero gradient. *)
Lemma C1_counterexample : ~ spec_update_solves_system X_bowl m_empty unit_x 0.
Proof.
  intros [_ H].
  apply (f_equal (fun v => PrimFloat.is_nan (nth 0 v 0%float))) in H.
  vm_compute in H. discriminate.
Qed.

(** In exact arithmetic, on the scaled bowl, H + 0.1 dH is the identity
    and the update of the first pass solves the linear system. *)
Lemma C1_exact_witness :
  let s := run X_exact m_exact unit_x_exact 0 in
  let H := fst (ddf X_exact (st_obj s) (mParams (st_obj s))) in
  let J := fst (df X_exact (st_obj s) (mParams (st_obj s))) in
  let M := madd H (mscale (mLambda m_exact)
                          (st_dH (run X_exact m_exact unit_x_exact 1))) in
  mvmul M (mvmul (inverse X_exact M) J) = J.
Proof.
  pose proof (C1_damped_newton_pass X_exact m_exact unit_x_exact 0 eq_refl) as T.
  cbv zeta in T |- *. destruct T as (_ & _ & _ & _ & _ & Hsolve).
  apply Hsolve.
  - exact Qc_semi_ring.
  - apply is_matrixb_ok. vm_compute. reflexivity.
  - apply Qc_meqb_eq. vm_compute. reflexivity.
Defined.

(** * Further properties of the code *)

Section Lifetime.

Context {R : Type} {SR : Scalar R} (X : Extern R).

(** X1: the configuration set by the constructor is never changed: every
    object reached through the constructor, [loadPoints] and [minimize]
    has 11 parameters, damping 0.1, at most 1000 passes and threshold
    0.005. *)
Theorem reachable_configuration (m : minimizer R) :
  reachable X m ->
  mNumParams m = 11 /\ mLambda m = lit_0_1 /\ mMaxIter m = 1000%Z /\
  mMinThresh m = lit_0_005.
Proof.
  induction 1 as [|m cloud _ IH|m g out r _ IH Hfit].
  - repeat split.
  - exact IH.
  - destruct (minimize_frame X m g out) as (r' & Hr' & _ & Hl & Hmax & Hth & Hn).
    rewrite Hfit in Hr'. injection Hr' as <-.
    destruct IH as (H1 & H2 & H3 & H4). repeat split; congruence.
Qed.

(** X2: [minimize] returns after at least one and at most max(1, mMaxIter)
    passes; when the cap is 1, 0 or negative it makes exactly one pass
    and returns false. *)
Theorem minimize_pass_bounds (m : minimizer R) (g out : SQ_params X) :
  exists k r,
    minimize_loop X m g = Some (run X m g k) /\
    minimize X m g out = Some r /\
    1 <= k /\ (Z.of_nat k <= Z.max 1 (mMaxIter m))%Z /\
    ((mMaxIter m <= 1)%Z -> k = 1 /\ fit_ok r = false).
Proof.
  destruct (minimize_run X m g out) as (k & Hk & Hb & Hl & Hm & _).
  exists k, (finish X (run X m g k) out).
  split; [exact Hl|]. split; [exact Hm|]. split; [exact Hk|]. split; [exact Hb|].
  intros Hcap. split; [lia|]. rewrite finish_flag.
  apply negb_false_iff, Z.leb_le. lia.
Qed.

Lemma same_config_set_mParams (m m' : minimizer R) :
  same_config m m' -> m' = set_mParams m (mParams m').
Proof.
  destruct m, m'. unfold same_config, set_mParams. cbn.
  intros (-> & -> & -> & -> & ->). reflexivity.
Qed.

(** X3: a fit does not depend on earlier fits on the same object: after any
    call of [minimize], a second call returns the flag, the output
    parameters, the object and the printed text that it returns on the
    original object. *)
Theorem minimize_forgets_earlier_fits (m : minimizer R) (g1 out1 g2 out2 : SQ_params X) :
  exists r1,
    minimize X m g1 out1 = Some r1 /\
    minimize X (fit_obj r1) g2 out2 = minimize X m g2 out2.
Proof.
  destruct (minimize_frame X m g1 out1) as (r1 & Hm & Hcfg).
  exists r1. split; [exact Hm|].
  rewrite (same_config_set_mParams Hcfg). reflexivity.
Qed.

End Lifetime.

Section Diagnostics.

Context {R : Type} {SR : Scalar R} (X : Extern R).

(** X4: [df] prints the line for element [n] exactly when the contribution of
    some sample point to element [n] is not a number, and prints nothing
    else. *)
Theorem df_reports_exactly_the_nans (m : minimizer R) (_params : VectorXd R) :
  (forall e, In e (snd (df X m _params)) -> exists n, e = JacobianNaN n) /\
  (forall n, In (JacobianNaN n) (snd (df X m _params)) <->
             n < mNumParams m /\
             exists it, In it (mSamples m) /\
                        rneq (jac_at X _params n it) (jac_at X _params n it) = true).
Proof.
  destruct (df_gradient X m _params) as [_ ->]. split.
  - intros e He. apply in_flat_map in He. destruct He as (it & _ & He).
    unfold jac_nans in He. apply in_map_iff in He. destruct He as (n & <- & _).
    now exists n.
  - intros n. rewrite in_flat_map. split.
    + intros (it & Hit & He). unfold jac_nans in He. apply in_map_iff in He.
      destruct He as (n' & Heq & Hf). injection Heq as ->.
      apply filter_In in Hf. destruct Hf as [Hs Hnan]. apply in_seq in Hs.
      split; [lia|]. now exists it.
    + intros (Hn & it & Hit & Hnan). exists it. split; [exact Hit|].
      unfold jac_nans. apply in_map. apply filter_In. split; [|exact Hnan].
      apply in_seq. lia.
Qed.

(** X5: [ddf] prints the line for entry (i,j) exactly when element
    i * mNumParams + j of the second-derivative array of some sample point
    is not a number, and prints nothing else. *)
Theorem ddf_reports_exactly_the_nans (m : minimizer R) (_params : VectorXd R) :
  (forall e, In e (snd (ddf X m _params)) -> exists i j, e = HessianNaN i j) /\
  (forall i j, In (HessianNaN i j) (snd (ddf X m _params)) <->
               i < mNumParams m /\ j < mNumParams m /\
               exists it, In it (mSamples m) /\
                 rneq (hes_at X _params (i * mNumParams m + j) it)
                      (hes_at X _params (i * mNumParams m + j) it) = true).
Proof.
  destruct (ddf_hessian X m _params) as [_ ->]. split.
  - intros e He. apply in_flat_map in He. destruct He as (it & _ & He).
    unfold hes_nans in He. apply in_flat_map in He. destruct He as (i & _ & He).
    apply in_map_iff in He. destruct He as (j & <- & _). now exists i, j.
  - intros i j. rewrite in_flat_map. split.
    + intros (it & Hit & He). unfold hes_nans in He. apply in_flat_map in He.
      destruct He as (i' & Hi' & He). apply in_map_iff in He.
      destruct He as (j' & Heq & Hf). injection Heq as -> ->.
      apply filter_In in Hf. destruct Hf as [Hs Hnan].
      apply in_seq in Hs, Hi'. split; [lia|]. split; [lia|]. now exists it.
    + intros (Hi & Hj & it & Hit & Hnan). exists it. split; [exact Hit|].
      unfold hes_nans. apply in_flat_map. exists i. split; [apply in_seq; lia|].
      apply in_map. apply filter_In. split; [apply in_seq; lia|exact Hnan].
Qed.

Lemma guarded_sum_ext (f f' : PointXYZ R -> R) (pts : list (PointXYZ R)) :
  (forall it, In it pts -> f it = f' it) -> guarded_sum f pts = guarded_sum f' pts.
Proof.
  unfold guarded_sum. generalize (@rzero R SR).
  induction pts as [|it pts IH]; intros acc Hext; cbn [fold_left]; [reflexivity|].
  rewrite (Hext it) by (now left). apply IH. intros it' Hin. apply Hext. now right.
Qed.

(** X6: when the second-derivative array of every sample point is symmetric
    (element i N + j equals element j N + i), the matrix returned by [ddf]
    is symmetric, coefficient for coefficient, in any arithmetic: both
    entries are accumulated by the same additions. *)
Theorem ddf_symmetric (m : minimizer R) (_params : VectorXd R) :
  (forall it i j, In it (mSamples m) -> i < mNumParams m -> j < mNumParams m ->
     hes_at X _params (i * mNumParams m + j) it
     = hes_at X _params (j * mNumParams m + i) it) ->
  forall i j, i < mNumParams m -> j < mNumParams m ->
    mget (fst (ddf X m _params)) i j = mget (fst (ddf X m _params)) j i.
Proof.
  intros Hsym i j Hi Hj. rewrite !ddf_mget by assumption.
  apply guarded_sum_ext. intros it Hin. now apply Hsym.
Qed.

End Diagnostics.

(** ** The evaluator in exact arithmetic *)

Section ExactSums.

Context {R : Type} {SR : Scalar R} (X : Extern R).
Hypothesis SRth : semi_ring_theory rzero rone radd rmul (@eq R).

Add Ring scalar_ring' : SRth.

Lemma skip_fold_shift (f : PointXYZ R -> R) (pts : list (PointXYZ R)) (a : R) :
  fold_left (fun acc it => skip_nan (f it) acc) pts a
  = radd a (fold_left (fun acc it => skip_nan (f it) acc) pts rzero).
Proof.
  revert a; induction pts as [|it pts IH]; intros a; cbn [fold_left].
  - ring.
  - rewrite (IH (skip_nan (f it) a)), (IH (skip_nan (f it) rzero)).
    unfold skip_nan. destruct (rneq (f it) (f it)); ring.
Qed.

Lemma guarded_sum_concat (f : PointXYZ R -> R) (a b : list (PointXYZ R)) :
  guarded_sum f (a ++ b) = radd (guarded_sum f a) (guarded_sum f b).
Proof. rewrite guarded_sum_app. apply skip_fold_shift. Qed.

Lemma guarded_sum_perm (f : PointXYZ R -> R) (a b : list (PointXYZ R)) :
  Permutation a b -> guarded_sum f a = guarded_sum f b.
Proof.
  intros Hp. unfold guarded_sum. generalize (@rzero R SR).
  induction Hp as [|x l l' _ IH|x y l|l l' l'' _ IH1 _ IH2]; intros acc;
    cbn [fold_left].
  - reflexivity.
  - apply IH.
  - f_equal. destruct (rneq (f x) (f x)), (rneq (f y) (f y)); try reflexivity. ring.
  - now rewrite IH1.
Qed.

Lemma map2_map_map {A B C D : Type} (h : B -> C -> D) (f : A -> B) (g : A -> C)
  (l : list A) :
  map2 h (map f l) (map g l) = map (fun x => h (f x) (g x)) l.
Proof. induction l as [|x l IH]; cbn; [reflexivity|now rewrite IH]. Qed.

(** X7: in exact arithmetic the evaluation is additive in the sample set: the
    gradient (Hessian) over the concatenation of two clouds is the sum of
    the gradients (Hessians) over each, so partial sums over disjoint
    parts of a cloud can be merged. *)
Theorem evaluation_additive (m : minimizer R) (_params : VectorXd R)
  (a b : list (PointXYZ R)) :
  fst (df X (set_mSamples m (a ++ b)) _params)
  = vadd (fst (df X (set_mSamples m a) _params)) (fst (df X (set_mSamples m b) _params))
  /\ fst (ddf X (set_mSamples m (a ++ b)) _params)
     = madd (fst (ddf X (set_mSamples m a) _params))
            (fst (ddf X (set_mSamples m b) _params)).
Proof.
  destruct (df_gradient X (set_mSamples m (a ++ b)) _params) as [-> _].
  destruct (df_gradient X (set_mSamples m a) _params) as [-> _].
  destruct (df_gradient X (set_mSamples m b) _params) as [-> _].
  destruct (ddf_hessian X (set_mSamples m (a ++ b)) _params) as [-> _].
  destruct (ddf_hessian X (set_mSamples m a) _params) as [-> _].
  destruct (ddf_hessian X (set_mSamples m b) _params) as [-> _].
  cbn [mSamples mNumParams set_mSamples]. split.
  - unfold vadd. rewrite map2_map_map. apply map_ext. intros n.
    apply guarded_sum_concat.
  - unfold madd. rewrite map2_map_map. apply map_ext. intros i.
    unfold vadd. rewrite map2_map_map. apply map_ext. intros j.
    apply guarded_sum_concat.
Qed.

(** X8: in exact arithmetic the order of the sample points does not matter:
    a permutation of the cloud gives the same gradient and Hessian. *)
Theorem evaluation_order_independent (m : minimizer R) (_params : VectorXd R)
  (a b : list (PointXYZ R)) :
  Permutation a b ->
  fst (df X (set_mSamples m a) _params) = fst (df X (set_mSamples m b) _params) /\
  fst (ddf X (set_mSamples m a) _params) = fst (ddf X (set_mSamples m b) _params).
Proof.
  intros Hp.
  destruct (df_gradient X (set_mSamples m a) _params) as [-> _].
  destruct (df_gradient X (set_mSamples m b) _params) as [-> _].
  destruct (ddf_hessian X (set_mSamples m a) _params) as [-> _].
  destruct (ddf_hessian X (set_mSamples m b) _params) as [-> _].
  cbn [mSamples mNumParams set_mSamples]. split.
  - apply map_ext. intros n. now apply guarded_sum_perm.
  - apply map_ext. intros i. apply map_ext. intros j. now apply guarded_sum_perm.
Qed.

End ExactSums.

(** ** The passes of the loop *)

Section Passes.

Context {R : Type} {SR : Scalar R} (X : Extern R).

Lemma matrix_ext (r c : nat) (A B : MatrixXd R) :
  is_matrix r c A -> is_matrix r c B ->
  (forall i j, i < r -> j < c -> mget A i j = mget B i j) -> A = B.
Proof.
  intros HA HB Heq.
  rewrite (@matrix_eq_map_seq _ _ r c A (mget B) HA Heq).
  symmetry. now apply matrix_eq_map_seq.
Qed.

Lemma nth_map2 {A B C : Type} (f : A -> B -> C) (l1 : list A) (l2 : list B)
  (i : nat) (d1 : A) (d2 : B) (d : C) :
  i < length l1 -> i < length l2 ->
  nth i (map2 f l1 l2) d = f (nth i l1 d1) (nth i l2 d2).
Proof.
  revert l2 i; induction l1 as [|a l1 IH]; intros [|b l2] [|i] H1 H2;
    cbn in *; try lia; auto.
  apply IH; lia.
Qed.

Lemma madd_is_matrix (r c : nat) (A B : MatrixXd R) :
  is_matrix r c A -> is_matrix r c B -> is_matrix r c (madd A B).
Proof.
  intros [HrA HcA] [HrB HcB]. unfold is_matrix, madd.
  assert (HL : length (map2 vadd A B) = r).
  { rewrite map2_length. unfold MatrixXd, VectorXd in *. lia. }
  split; [exact HL|].
  apply Forall_forall. intros row Hin.
  destruct (In_nth _ _ [] Hin) as (i & Hi & <-).
  assert (Hi' : i < r) by (unfold MatrixXd, VectorXd in *; lia).
  rewrite (nth_map2 vadd A B [] [] []) by (unfold MatrixXd, VectorXd in *; lia).
  unfold vadd. rewrite map2_length.
  rewrite Forall_forall in HcA, HcB.
  assert (La : length (nth i A []) = c)
    by (apply HcA, nth_In; unfold MatrixXd, VectorXd in *; lia).
  assert (Lb : length (nth i B []) = c)
    by (apply HcB, nth_In; unfold MatrixXd, VectorXd in *; lia).
  unfold MatrixXd, VectorXd in *. lia.
Qed.

Lemma mscale_is_matrix (r c : nat) (x : R) (A : MatrixXd R) :
  is_matrix r c A -> is_matrix r c (mscale x A).
Proof.
  intros [Hr Hc]. unfold is_matrix, mscale. rewrite length_map. split; [exact Hr|].
  apply Forall_forall. intros row Hin. apply in_map_iff in Hin.
  destruct Hin as (row' & <- & Hin'). unfold vscale. rewrite length_map.
  rewrite Forall_forall in Hc. now apply Hc.
Qed.

Lemma mget_madd (r c : nat) (A B : MatrixXd R) (i j : nat) :
  is_matrix r c A -> is_matrix r c B -> i < r -> j < c ->
  mget (madd A B) i j = radd (mget A i j) (mget B i j).
Proof.
  intros [HrA HcA] [HrB HcB] Hi Hj. unfold mget, madd.
  rewrite (nth_map2 vadd A B [] [] []) by (unfold MatrixXd, VectorXd in *; lia).
  rewrite Forall_forall in HcA, HcB.
  assert (La : length (nth i A []) = c)
    by (apply HcA, nth_In; unfold MatrixXd, VectorXd in *; lia).
  assert (Lb : length (nth i B []) = c)
    by (apply HcB, nth_In; unfold MatrixXd, VectorXd in *; lia).
  unfold vadd. apply nth_map2; unfold MatrixXd, VectorXd in *; lia.
Qed.

Lemma mget_mscale (r c : nat) (x : R) (A : MatrixXd R) (i j : nat) :
  is_matrix r c A -> i < r -> j < c ->
  mget (mscale x A) i j = rmul x (mget A i j).
Proof.
  intros [Hr Hc] Hi Hj. unfold mget, mscale.
  change (@nil R) with (vscale x []) at 1. rewrite map_nth.
  unfold vscale.
  rewrite (nth_indep _ rzero (rmul x rzero)).
  - apply map_nth.
  - rewrite length_map. rewrite Forall_forall in Hc.
    assert (La : length (nth i A []) = c)
      by (apply Hc, nth_In; unfold MatrixXd, VectorXd in *; lia).
    unfold MatrixXd, VectorXd in *. lia.
Qed.

(** [dH] is declared outside the loop and reused, yet after every pass it
    is the matrix that pass would build from a fresh identity. *)
Lemma run_dH_fresh (m : minimizer R) (g : SQ_params X) (k : nat) :
  st_dH (run X m g (S k))
  = damping (mNumParams m)
            (fst (ddf X m (mParams (st_obj (run X m g k)))))
            (Identity (mNumParams m) (mNumParams m)).
Proof.
  destruct (run_frame X m g k) as (Hs & _ & _ & _ & Hn).
  rewrite run_succ, body_eq. cbn [st_dH]. rewrite Hn.
  rewrite (ddf_depends X (st_obj (run X m g k)) m _ Hs Hn).
  set (H := fst (ddf X m (mParams (st_obj (run X m g k))))).
  destruct (run_dH X m g k) as [HM Hoff].
  destruct (damping_spec H HM) as [HM1 G1].
  destruct (damping_spec H (Identity_is_matrix (R := R) (mNumParams m) (mNumParams m)))
    as [HM2 G2].
  apply (matrix_ext HM1 HM2). intros i j Hi Hj.
  rewrite G1, G2 by assumption.
  destruct (Nat.eqb_spec i j) as [_|Hij]; [reflexivity|].
  rewrite Hoff, Identity_mget by assumption.
  now destruct (Nat.eqb_spec i j).
Qed.

Lemma run_params_step (m : minimizer R) (g : SQ_params X) (k : nat) :
  mParams (st_obj (run X m g (S k)))
  = newton_step X m (mParams (st_obj (run X m g k))).
Proof.
  pose proof (run_dH_fresh m g k) as HdH.
  destruct (run_frame X m g k) as (Hs & Hl & _ & _ & Hn).
  rewrite run_succ, body_eq in HdH |- *. cbn [st_dH] in HdH.
  cbn [st_obj mParams set_mParams]. rewrite HdH.
  unfold newton_step, damped_matrix.
  rewrite (ddf_depends X (st_obj (run X m g k)) m _ Hs Hn).
  rewrite (df_depends X (st_obj (run X m g k)) m _ Hs Hn).
  now rewrite Hl.
Qed.

Lemma run_params (m : minimizer R) (g : SQ_params X) (k : nat) :
  mParams (st_obj (run X m g k)) = Nat.iter k (newton_step X m) (params2Vec X g).
Proof.
  induction k as [|k IH]; [reflexivity|].
  rewrite run_params_step, IH. reflexivity.
Qed.

Lemma run_error (m : minimizer R) (g : SQ_params X) (k : nat) :
  error_at X m g (S k)
  = norm X (vsub (mParams (st_obj (run X m g (S k)))) (mParams (st_obj (run X m g k)))).
Proof.
  unfold error_at. rewrite run_succ, body_eq. reflexivity.
Qed.

(** X9: the loop is memoryless: the parameters after k passes are the k-fold
    iterate of one function of the parameters, [newton_step], from the
    initial guess (whatever [mParams], [dH], [H] and [J] held before), and
    the step size of a pass is the norm of the difference of two
    consecutive iterates. *)
Theorem passes_iterate_newton_step (m : minimizer R) (g : SQ_params X) (k : nat) :
  mParams (st_obj (run X m g k)) = Nat.iter k (newton_step X m) (params2Vec X g) /\
  error_at X m g (S k)
  = norm X (vsub (Nat.iter (S k) (newton_step X m) (params2Vec X g))
                 (Nat.iter k (newton_step X m) (params2Vec X g))).
Proof.
  split; [apply run_params|]. rewrite run_error, !run_params. reflexivity.
Qed.

Lemma run_damped_matrix (m : minimizer R) (g : SQ_params X) (k : nat) :
  madd (st_H (run X m g (S k)))
       (mscale (mLambda (st_obj (run X m g k))) (st_dH (run X m g (S k))))
  = damped_matrix X m (mParams (st_obj (run X m g k))).
Proof.
  rewrite run_dH_fresh.
  destruct (run_frame X m g k) as (Hs & Hl & _ & _ & Hn).
  rewrite run_succ, body_eq. cbn [st_H].
  rewrite (ddf_depends X (st_obj (run X m g k)) m _ Hs Hn), Hl. reflexivity.
Qed.

(** X10: the matrix inverted on pass k + 1, H + mLambda * dH, is a function of
    the current parameters alone; it is square of size mNumParams, its
    diagonal entries are H(i,i) + mLambda * H(i,i) and its other entries
    H(i,j) + mLambda * 0, with H the Hessian at the current parameters. *)
Theorem damped_matrix_entries (m : minimizer R) (g : SQ_params X) (k : nat) :
  let params := mParams (st_obj (run X m g k)) in
  let H := fst (ddf X m params) in
  let M := madd (st_H (run X m g (S k)))
                (mscale (mLambda (st_obj (run X m g k))) (st_dH (run X m g (S k)))) in
  M = damped_matrix X m params /\
  is_matrix (mNumParams m) (mNumParams m) M /\
  forall i j, i < mNumParams m -> j < mNumParams m ->
    mget M i j
    = radd (mget H i j) (rmul (mLambda m) (if Nat.eqb i j then mget H i i else rzero)).
Proof.
  intros params H M. unfold M. rewrite run_damped_matrix. fold params.
  split; [reflexivity|].
  unfold damped_matrix. fold H.
  assert (HH : is_matrix (mNumParams m) (mNumParams m) H) by apply ddf_is_matrix.
  destruct (damping_spec H (Identity_is_matrix (R := R) (mNumParams m) (mNumParams m)))
    as [HD GD].
  split.
  - apply madd_is_matrix; [exact HH|]. now apply mscale_is_matrix.
  - intros i j Hi Hj.
    rewrite (mget_madd HH (mscale_is_matrix (mLambda m) HD) Hi Hj).
    rewrite (mget_mscale (mLambda m) HD Hi Hj), GD by assumption.
    rewrite Identity_mget by assumption.
    now destruct (Nat.eqb_spec i j).
Qed.

Lemma run_out (m : minimizer R) (g : SQ_params X) (k : nat) :
  st_out (run X m g k)
  = InitialGuess (params2Vec X g) :: flat_map (pass_output X m g) (seq 0 k).
Proof.
  induction k as [|k IH]; [reflexivity|].
  rewrite seq_S, flat_map_app. cbn [flat_map Nat.add]. rewrite app_nil_r.
  rewrite app_comm_cons, <- IH.
  unfold pass_output. rewrite run_error.
  rewrite (run_succ X m g k) at 1. rewrite body_eq. cbn [st_out].
  rewrite run_iter. rewrite (run_succ X m g k), body_eq. cbn [st_obj mParams set_mParams].
  replace (Z.of_nat k + 1)%Z with (Z.of_nat (S k)) by lia. reflexivity.
Qed.

(** X11: what [minimize] prints: the initial guess; for each of its k passes
    the diagnostics of [ddf], those of [df] and one line with the count
    (1, 2, ..., k) and the step size; then one closing line, the failure
    line when k has reached [mMaxIter] and otherwise the success line, with
    the final parameters and the gradient and Hessian of the last pass. *)
Theorem minimize_output (m : minimizer R) (g out : SQ_params X) :
  exists k r,
    1 <= k /\
    minimize_loop X m g = Some (run X m g k) /\
    minimize X m g out = Some r /\
    fit_out r
    = InitialGuess (params2Vec X g)
      :: flat_map (pass_output X m g) (seq 0 k) ++ [summary X m g k].
Proof.
  destruct (minimize_run X m g out) as (k & Hk & _ & Hl & Hm & _).
  exists k, (finish X (run X m g k) out).
  split; [exact Hk|]. split; [exact Hl|]. split; [exact Hm|].
  unfold finish, summary. rewrite run_iter.
  destruct (run_frame X m g k) as (_ & _ & -> & _).
  rewrite app_comm_cons, <- run_out.
  destruct (mMaxIter m <=? Z.of_nat k)%Z; reflexivity.
Qed.

End Passes.

(** ** A stationary point in exact arithmetic *)

Section Stationary.

Context {R : Type} {SR : Scalar R} (X : Extern R).
Hypothesis SRth : semi_ring_theory rzero rone radd rmul (@eq R).
Hypothesis rsub_zero : forall x : R, rsub x rzero = x.

Add Ring scalar_ring'' : SRth.

Lemma dot_VZero_r (u : VectorXd R) (n : nat) : dot u (VZero n) = rzero.
Proof.
  revert n; induction u as [|a u IH]; intros [|n]; try reflexivity.
  change (VZero (S n)) with (rzero :: VZero n).
  rewrite dot_cons, IH. ring.
Qed.

Lemma mvmul_VZero (A : MatrixXd R) (n : nat) : mvmul A (VZero n) = VZero (length A).
Proof.
  induction A as [|row A IH]; [reflexivity|].
  cbn [mvmul map length]. fold (mvmul A (VZero n)). rewrite IH, dot_VZero_r.
  reflexivity.
Qed.

Lemma vsub_VZero (p : VectorXd R) : vsub p (VZero (length p)) = p.
Proof.
  induction p as [|a p IH]; [reflexivity|].
  cbn [length]. change (VZero (S (length p))) with (rzero :: VZero (length p)).
  cbn [vsub map2]. fold (vsub p (VZero (length p))). now rewrite IH, rsub_zero.
Qed.

Lemma iter_fixed {A : Type} (f : A -> A) (x : A) (k : nat) :
  f x = x -> Nat.iter k f x = x.
Proof.
  intros Hf. induction k as [|k IH]; [reflexivity|].
  now rewrite Nat.iter_succ, IH.
Qed.

Lemma newton_step_stationary (m : minimizer R) (params : VectorXd R) :
  length params = mNumParams m ->
  length (inverse X (damped_matrix X m params)) = mNumParams m ->
  fst (df X m params) = VZero (mNumParams m) ->
  newton_step X m params = params.
Proof.
  intros Hlen Hrows Hgrad.
  unfold newton_step. rewrite Hgrad, mvmul_VZero, Hrows, <- Hlen.
  apply vsub_VZero.
Qed.

(** X12: in exact arithmetic a stationary point is a fixed point of the
    update: when the gradient at the parameters is the zero vector and
    [inverse()] returns a matrix with as many rows as there are
    parameters, one pass leaves the parameters as they are, and a fit
    started there never moves. *)
Theorem stationary_point_is_fixed (m : minimizer R) (params : VectorXd R) :
  length params = mNumParams m ->
  length (inverse X (damped_matrix X m params)) = mNumParams m ->
  fst (df X m params) = VZero (mNumParams m) ->
  newton_step X m params = params /\
  forall g k, params2Vec X g = params -> mParams (st_obj (run X m g k)) = params.
Proof.
  intros Hlen Hrows Hgrad.
  pose proof (newton_step_stationary m params Hlen Hrows Hgrad) as Hstep.
  split; [exact Hstep|].
  intros g k Hg. rewrite run_params, Hg. now apply iter_fixed.
Qed.

End Stationary.

(** ** These properties on concrete objects *)

Lemma reachable_configuration_witness :
  mNumParams m_origin = 11 /\ mLambda m_origin = lit_0_1 /\
  mMaxIter m_origin = 1000%Z /\ mMinThresh m_origin = lit_0_005.
Proof.
  exact (reachable_configuration
           (@reach_load _ _ X_bowl minimizer_ctor [origin] (@reach_ctor _ _ X_bowl))).
Defined.

Lemma ddf_symmetric_witness :
  mget (fst (ddf X_ratio m_pole unit_x)) 0 1 = mget (fst (ddf X_ratio m_pole unit_x)) 1 0.
Proof.
  assert (Hsym : forall it i j, In it (mSamples m_pole) ->
             i < mNumParams m_pole -> j < mNumParams m_pole ->
             hes_at X_ratio unit_x (i * mNumParams m_pole + j) it
             = hes_at X_ratio unit_x (j * mNumParams m_pole + i) it).
  { intros it [|i] [|j] _ _ _; reflexivity. }
  assert (H0 : 0 < mNumParams m_pole) by (cbn; lia).
  assert (H1 : 1 < mNumParams m_pole) by (cbn; lia).
  exact (ddf_symmetric X_ratio m_pole unit_x Hsym H0 H1).
Defined.

Lemma Qc_rsub_zero : forall x : Qc, rsub x rzero = x.
Proof. intros x. cbn [rsub rzero Qc_scalar]. ring. Qed.

Lemma evaluation_additive_witness :
  fst (df X_exact (set_mSamples m_exact ([origin_exact] ++ [pole_exact])) unit_x_exact)
  = vadd (fst (df X_exact (set_mSamples m_exact [origin_exact]) unit_x_exact))
         (fst (df X_exact (set_mSamples m_exact [pole_exact]) unit_x_exact)).
Proof.
  exact (proj1 (evaluation_additive X_exact Qc_semi_ring m_exact unit_x_exact
                  [origin_exact] [pole_exact])).
Defined.

Lemma evaluation_order_witness :
  fst (df X_exact (set_mSamples m_exact [origin_exact; pole_exact]) unit_x_exact)
  = fst (df X_exact (set_mSamples m_exact [pole_exact; origin_exact]) unit_x_exact).
Proof.
  exact (proj1 (evaluation_order_independent X_exact Qc_semi_ring m_exact unit_x_exact
                  (perm_swap pole_exact origin_exact []))).
Defined.

Lemma stationary_point_witness :
  newton_step X_exact m_exact zero_x_exact = zero_x_exact.
Proof.
  refine (proj1 (stationary_point_is_fixed X_exact Qc_semi_ring Qc_rsub_zero
                   m_exact zero_x_exact _ _ _)).
  - reflexivity.
  - vm_compute. reflexivity.
  - vm_compute. reflexivity.
Defined.
